(** * extract_api_spec.py: a shallow embedding and its verified properties

    The script turns the text of API documents into one record per documented
    endpoint.  This development embeds its extraction core

      - [find_urls]          (endpoint discovery),
      - [json_blocks_near]   (windowed balanced-brace block extraction),
      - [pick_io]            (role classification and JSON normalisation),
      - [main]               (record assembly with the running index),

    and proves the properties stated about them.

    Conventions.  A Python [str] is a list of Unicode code points ([N]); a
    Python [int] is a [Z] where it can be negative and a [nat] where it is an
    offset produced by [find], [range] or a match.  Library functions that are
    not part of the script ([str.lower], [json.loads], [json.dumps]) are the
    fields of the interface [PyLib]. *)

From Stdlib Require Import ZArith NArith Ascii String Lia.
From stdpp Require Import base list gmap sorting.

#[local] Set Warnings "-register-all,-clear-no-such-hyp".
#[local] Open Scope N_scope.

(** ** Python strings *)

Abbreviation char := N.
Abbreviation str := (list N).

Definition ord (c : ascii) : char := N_of_ascii c.
Definition lit (s : string) : str := map ord (list_ascii_of_string s).
Arguments ord c%_char.
Arguments lit s%_string.

(** The double quote, which string literals of this file never contain. *)
Definition dquote : char := 34.
Definition quoted (s : str) : str := dquote :: s ++ [dquote].

(** [Py_UNICODE_ISSPACE]: the test behind [str.strip], [str.isspace] and the
    [\s] / [\S] classes of [re] on [str] patterns. *)
Definition isspace (c : char) : bool :=
  ((9 <=? c) && (c <=? 13)) || ((28 <=? c) && (c <=? 32))
  || (c =? 133) || (c =? 160) || (c =? 5760)
  || ((8192 <=? c) && (c <=? 8202))
  || (c =? 8232) || (c =? 8233) || (c =? 8239) || (c =? 8287) || (c =? 12288).

Definition nonspace (c : char) : bool := negb (isspace c).

Fixpoint lstrip (s : str) : str :=
  match s with
  | c :: s' => if isspace c then lstrip s' else s
  | [] => []
  end.

Definition rstrip (s : str) : str := rev (lstrip (rev s)).

(** [s.strip()] *)
Definition strip (s : str) : str := rstrip (lstrip s).

(** Truth value of a string or list: non-empty. *)
Definition truthy {A} (l : list A) : bool :=
  match l with [] => false | _ => true end.

(** [s[lo:hi]] for arbitrary integers: a negative bound counts from the end,
    and both bounds are clipped to [0, len(s)]. *)
Definition clip_index (len i : Z) : Z :=
  if (i <? 0)%Z then Z.max 0 (i + len) else Z.min i len.

Definition slice (s : str) (lo hi : Z) : str :=
  let len := Z.of_nat (length s) in
  let a := clip_index len lo in
  let b := clip_index len hi in
  take (Z.to_nat (b - a)) (drop (Z.to_nat a) s).

(** [s[a:b]] for offsets [0 <= a], [0 <= b]. *)
Definition substr (s : str) (a b : nat) : str := take (b - a) (drop a s).

Fixpoint startswith (k s : str) : bool :=
  match k, s with
  | [], _ => true
  | _ :: _, [] => false
  | x :: k', y :: s' => (x =? y) && startswith k' s'
  end.

(** [k in s] *)
Fixpoint contains (k s : str) : bool :=
  startswith k s ||
  match s with
  | [] => false
  | _ :: s' => contains k s'
  end.

(** Offset of the first occurrence of [k] in [s]: [s.find(k)], with [None]
    for -1.  It is also where [re.search(re.escape(k), s)] matches, the
    escaped pattern matching exactly the literal [k]. *)
Fixpoint find_str (k s : str) : option nat :=
  if startswith k s then Some 0%nat
  else match s with
       | [] => None
       | _ :: s' => S <$> find_str k s'
       end.

Fixpoint index_of (c : char) (s : str) : option nat :=
  match s with
  | [] => None
  | x :: s' => if x =? c then Some 0%nat else S <$> index_of c s'
  end.

(** [s.find(c, i)] for [0 <= i], with [None] for -1. *)
Definition find_char (c : char) (s : str) (i : nat) : option nat :=
  (fun p => (i + p)%nat) <$> index_of c (drop i s).

(** Lexicographic order on code points: [<] on [str]. *)
Fixpoint str_ltb (a b : str) : bool :=
  match a, b with
  | _, [] => false
  | [], _ :: _ => true
  | x :: a', y :: b' => (x <? y) || ((x =? y) && str_ltb a' b')
  end.

(** ** Exceptions *)

(** An exception, by the name of its class.  Every exception of this model
    is an instance of [Exception], which is what [except Exception] catches. *)
Inductive exn := Exn (cls : string).

Inductive result (A : Type) :=
| Ok (a : A)
| Raise (e : exn).
Arguments Ok {A} a.
Arguments Raise {A} e.

#[global] Instance result_ret : MRet result := @Ok.
#[global] Instance result_bind : MBind result := λ A B k m,
  match m with
  | Ok a => k a
  | Raise e => Raise e
  end.

(** [try: body  except Exception: handler] *)
Definition try_except {A} (body : result A) (handler : result A) : result A :=
  match body with
  | Ok a => Ok a
  | Raise _ => handler
  end.

(** A [for] loop whose body may raise. *)
Fixpoint for_each {S A} (body : S → A → result S) (l : list A) (st : S) : result S :=
  match l with
  | [] => Ok st
  | a :: l' => st' ← body st a; for_each body l' st'
  end.

(** ** The library interface *)

(** What the script takes from Python's library: [str.lower], and the [json]
    module's parser and serialiser, the latter called as
    [json.dumps(v, ensure_ascii=False, indent=2)]. *)
Class PyLib := {
  lower : str → str;
  json_value : Type;
  json_loads : str → result json_value;
  json_dumps : json_value → result str;
}.

(** ** Endpoint discovery: [find_urls] *)

Definition POST : str := lit "POST".
Definition slash : char := ord "/".

(** Longest prefix of [s] whose characters satisfy [p], and what follows. *)
Fixpoint span_of (p : char → bool) (s : str) : str * str :=
  match s with
  | c :: s' => if p c then let '(a, b) := span_of p s' in (c :: a, b) else ([], s)
  | [] => ([], [])
  end.

Fixpoint strip_prefix (k s : str) : option str :=
  match k, s with
  | [], _ => Some s
  | _ :: _, [] => None
  | x :: k', y :: s' => if x =? y then strip_prefix k' s' else None
  end.

(** The pattern [POST\s+(/\S+)] tried at the head of [s]: group 1 and the
    text after the match.  Both repetitions are greedy; giving back a
    character of [\s+] leaves a space where the [/] must be, and nothing
    follows [\S+], so the first attempt of the engine decides. *)
Definition match_at (s : str) : option (str * str) :=
  match strip_prefix POST s with
  | None => None
  | Some s1 =>
      let '(ws, s2) := span_of isspace s1 in
      match ws, s2 with
      | _ :: _, c :: s3 =>
          if c =? slash then
            let '(r, rest) := span_of nonspace s3 in
            match r with
            | _ :: _ => Some (c :: r, rest)
            | [] => None
            end
          else None
      | _, _ => None
      end
  end.

(** [re.finditer(r"POST\s+(/\S+)", s)]: the matches from left to right, each
    search resuming where the previous match ended; a match is given by
    [m.start()] and [m.group(1)].  [s] is what is left of the text from
    offset [pos] on. *)
Fixpoint finditer_fuel (fuel : nat) (pos : nat) (s : str) : list (nat * str) :=
  match fuel with
  | O => []
  | S fuel' =>
      match match_at s with
      | Some (u, rest) =>
          (pos, u) :: finditer_fuel fuel' (pos + (length s - length rest))%nat rest
      | None =>
          match s with
          | [] => []
          | _ :: s' => finditer_fuel fuel' (S pos) s'
          end
      end
  end.

Definition finditer (s : str) : list (nat * str) :=
  finditer_fuel (S (length s)) 0 s.

(** The body of the loop of [find_urls], on the state [(urls, seen)]. *)
Definition find_urls_step (st : list str * gset str) (u : str) : list str * gset str :=
  let '(urls, seen) := st in
  if decide (u ∈ seen) then st else (urls ++ [u], {[u]} ∪ seen).

Definition find_urls (text : str) : list str :=
  fst (foldl find_urls_step ([], ∅) (map snd (finditer text))).

(** ** Block extraction: [json_blocks_near] *)

Definition lbrace : char := ord "{".
Definition rbrace : char := ord "}".

(** The inner [for j in range(p, len(span))] loop, entered at offset [j] with
    [rest = span[j:]]: the offset at which it breaks, or [None] when it runs
    to the end of the span (the [else] branch of the [for]). *)
Fixpoint scan_depth (rest : str) (j : nat) (depth : Z) : option nat :=
  match rest with
  | [] => None
  | ch :: rest' =>
      if ch =? lbrace then scan_depth rest' (S j) (depth + 1)%Z
      else if ch =? rbrace then
        let depth := (depth - 1)%Z in
        if (depth =? 0)%Z then Some j else scan_depth rest' (S j) depth
      else scan_depth rest' (S j) depth
  end.

(** The [while] loop.  Its state is [(i, out)]; the third component is a
    ghost variable, the trimmed spans [raw] in the order the loop computed
    them.  The fuel bounds the number of iterations. *)
Fixpoint blocks_loop (fuel : nat) (span : str) (max_blocks : Z)
    (i : nat) (out found : list str) : list str * list str :=
  match fuel with
  | O => (out, found)
  | S fuel' =>
      if (Z.of_nat (length out) <? max_blocks)%Z then
        match find_char lbrace span i with
        | None => (out, found)
        | Some p =>
            let start := p in
            match scan_depth (drop p span) p 0 with
            | Some j =>
                let raw := strip (substr span start (j + 1)) in
                let out' := if (50 <? length raw)%nat then out ++ [raw] else out in
                blocks_loop fuel' span max_blocks (j + 1) out' (found ++ [raw])
            | None => (out, found)
            end
        end
      else (out, found)
  end.

Definition window (text : str) (center radius : Z) : str :=
  let s := Z.max 0 (center - radius) in
  let e := Z.min (Z.of_nat (length text)) (center + radius) in
  slice text s e.

Definition blocks_run (text : str) (center radius max_blocks : Z) : list str * list str :=
  let span := window text center radius in
  blocks_loop (S (length span)) span max_blocks 0 [] [].

Definition json_blocks_near (text : str) (center radius max_blocks : Z) : list str :=
  fst (blocks_run text center radius max_blocks).

(** The trimmed balanced spans the loop found, kept or not. *)
Definition found_spans (text : str) (center radius max_blocks : Z) : list str :=
  snd (blocks_run text center radius max_blocks).

Definition default_radius : Z := 30000.
Definition default_max_blocks : Z := 12.

(** ** Role classification: [pick_io] *)

(** A string object: its identity and its characters.  [pick_io] compares
    candidates with [is not], that is by identity. *)
Record strobj := { oid : nat; chars : str }.

(** The object of the empty string literal. *)
Definition empty_str : strobj := {| oid := 0; chars := [] |}.

(** Each [raw] of [json_blocks_near] is a string object of its own: the
    blocks of a list are numbered from 1. *)
Definition alloc (l : list str) : list strobj :=
  imap (fun i s => {| oid := S i; chars := s |}) l.

Definition same_obj (a b : strobj) : bool := Nat.eqb (oid a) (oid b).

Definition resp_keys : list str :=
  [lit "msgrshdr"; lit "rspcode"; lit "responsejson"; lit "error"].
Definition req_keys : list str :=
  [lit "securitycontext"; lit "custid"; lit "userid"; lit "data"; lit "body"].

(** [next(b for b in blocks if p(b))], with the empty string literal for
    default. *)
Definition next_or_empty (p : strobj → bool) (blocks : list strobj) : strobj :=
  default empty_str (List.find p blocks).

(** [max(b0 :: bs, key=len)]: the first of the longest. *)
Definition max_by_len (b0 : strobj) (bs : list strobj) : strobj :=
  foldl (fun best b => if (length (chars best) <? length (chars b))%nat then b else best) b0 bs.

Section Classifier.
Context `{PyLib}.

Definition is_resp (b : strobj) : bool :=
  let t := lower (chars b) in
  existsb (fun k => contains k t) resp_keys.

Definition is_req (b : strobj) : bool :=
  let t := lower (chars b) in
  existsb (fun k => contains k t) req_keys && negb (is_resp b).

(** The selection made by [pick_io], before normalisation. *)
Definition select_io (blocks : list strobj) : strobj * strobj :=
  let inp := next_or_empty is_req blocks in
  let out := next_or_empty is_resp blocks in
  let inp :=
    match blocks with
    | b0 :: bs => if negb (truthy (chars inp)) then max_by_len b0 bs else inp
    | [] => inp
    end in
  let out :=
    if negb (truthy (chars out)) then
      let rest := List.filter (fun b => negb (same_obj b inp)) blocks in
      match rest with
      | b0 :: bs => max_by_len b0 bs
      | [] => empty_str
      end
    else out in
  (inp, out).

(** The body of the [try] of [norm]. *)
Definition norm_try (s : str) : result str :=
  v ← json_loads s; json_dumps v.

Definition norm (s : str) : result str :=
  try_except (norm_try s) (Ok s).

Definition pick_io (blocks : list strobj) : result (str * str) :=
  let '(inp, out) := select_io blocks in
  a ← norm (chars inp); b ← norm (chars out); Ok (a, b).
End Classifier.

(** ** Record assembly: [read_pdf_text] and [main] *)

(** A PDF file: its name and, page by page, what [extract_text()] gave
    ([None] where it gave [None]). *)
Record pdf := { pdf_name : str; pdf_pages : list (option str) }.

(** The five [replace] calls: full-width colon, parentheses, full stop and
    hyphen-minus to their ASCII forms. *)
Definition halfwidth (c : char) : char :=
  if c =? 65306 then ord ":"
  else if c =? 65288 then ord "("
  else if c =? 65289 then ord ")"
  else if c =? 65294 then ord "."
  else if c =? 65293 then ord "-"
  else c.

Fixpoint join (sep : str) (l : list str) : str :=
  match l with
  | [] => []
  | [x] => x
  | x :: l' => x ++ sep ++ join sep l'
  end.

Definition read_pdf_text (f : pdf) : str :=
  let lines :=
    foldl (fun lines page =>
             let t := default [] page in
             if truthy t then lines ++ [strip (map halfwidth t)] else lines)
          [] (pdf_pages f) in
  join [10] lines.

(** [sorted]: a stable insertion sort of the files by name ([f] goes before
    the first file whose name is not smaller than its own).  Paths of one
    directory compare as their names do. *)
Fixpoint insert_sorted (f : pdf) (l : list pdf) : list pdf :=
  match l with
  | [] => [f]
  | g :: l' => if str_ltb (pdf_name g) (pdf_name f) then g :: insert_sorted f l' else f :: l
  end.

Definition sorted (l : list pdf) : list pdf := foldr insert_sorted [] l.

(** A row of the output table. *)
Record row := {
  Index : Z;
  FileName : str;
  URL : str;
  Method : str;
  Input : str;
  ResponseCode : str;
  Output : str;
}.

Definition placeholder (idx : Z) (name : str) : row :=
  {| Index := idx; FileName := name; URL := []; Method := lit "POST";
     Input := []; ResponseCode := lit "200"; Output := [] |}.

Section Assembler.
Context `{PyLib}.

(** The body of [for url in urls], on the state [(rows, idx)]. *)
Definition url_step (name text : str) (st : list row * Z) (url : str)
    : result (list row * Z) :=
  let '(rows, idx) := st in
  let m := find_str url text in
  let blocks :=
    match m with
    | Some start =>
        alloc (json_blocks_near text (Z.of_nat start) default_radius default_max_blocks)
    | None => []
    end in
  '(inp, out) ← pick_io blocks;
  Ok (rows ++ [{| Index := idx; FileName := name; URL := url; Method := lit "POST";
                  Input := inp; ResponseCode := lit "200"; Output := out |}],
      (idx + 1)%Z).

(** The body of [for pdf in sorted(...)]. *)
Definition pdf_step (st : list row * Z) (f : pdf) : result (list row * Z) :=
  let '(rows, idx) := st in
  let text := read_pdf_text f in
  if negb (truthy (strip text)) then
    Ok (rows ++ [placeholder idx (pdf_name f)], (idx + 1)%Z)
  else
    let urls := find_urls text in
    for_each (url_step (pdf_name f) text) urls st.

(** [main], from the files found by the [glob] to the rows given to the
    data frame: the loop over the files, on the page texts extracted from
    them.  Deleting the old output, opening the files and writing the sheet
    are input and output of the script, outside this embedding; [Ok] says
    that building the rows raises nothing. *)
Definition main (files : list pdf) : result (list row) :=
  '(rows, _) ← for_each pdf_step (sorted files) ([], 1%Z);
  Ok rows.
End Assembler.

(** ** A reference instance of the library interface

    An executable instance of [PyLib], on which the functions above can be
    run: [str.lower] on ASCII letters, and the [json] module on the fragment
    of JSON without fractional numbers, exponents, [NaN]/[Infinity] and
    [\u] escapes (on those [loads] raises, as it does on any malformed
    text).  The general theorems below are stated for every instance; this
    one serves to evaluate them. *)
Module RefLib.

Definition lower_char (c : char) : char :=
  if (65 <=? c) && (c <=? 90) then c + 32 else c.

Inductive json :=
| JNull
| JBool (b : bool)
| JInt (z : Z)
| JStr (s : str)
| JArr (l : list json)
| JObj (l : list (str * json)).

Definition decode_error : exn := Exn "JSONDecodeError".

(** The whitespace of JSON: space, tab, line feed, carriage return. *)
Definition json_ws (c : char) : bool :=
  (c =? 32) || (c =? 9) || (c =? 10) || (c =? 13).

Fixpoint skip_ws (s : str) : str :=
  match s with
  | c :: s' => if json_ws c then skip_ws s' else s
  | [] => []
  end.

Definition unescape (c : char) : option char :=
  if c =? dquote then Some dquote
  else if c =? ord "\" then Some (ord "\")
  else if c =? ord "/" then Some (ord "/")
  else if c =? ord "b" then Some 8
  else if c =? ord "f" then Some 12
  else if c =? ord "n" then Some 10
  else if c =? ord "r" then Some 13
  else if c =? ord "t" then Some 9
  else None.

(** The characters of a string literal after its opening quote. *)
Fixpoint scan_string (s acc : str) : option (str * str) :=
  match s with
  | [] => None
  | c :: s' =>
      if c =? dquote then Some (rev acc, s')
      else if c =? ord "\" then
        match s' with
        | e :: s'' =>
            match unescape e with
            | Some x => scan_string s'' (x :: acc)
            | None => None
            end
        | [] => None
        end
      else if c <? 32 then None
      else scan_string s' (c :: acc)
  end.

Definition is_digit (c : char) : bool := (48 <=? c) && (c <=? 57).

Fixpoint digits_value (ds : str) (acc : N) : N :=
  match ds with
  | [] => acc
  | d :: ds' => digits_value ds' (10 * acc + (d - 48))
  end.

(** An integer literal (an optional minus sign, then 0 or a digit from 1 to
    9 followed by digits) that no fraction or exponent follows. *)
Definition scan_int (s : str) : option (Z * str) :=
  let '(neg, s1) :=
    match s with
    | c :: s' => if c =? ord "-" then (true, s') else (false, s)
    | [] => (false, s)
    end in
  let '(ds, rest) := span_of is_digit s1 in
  let wellformed :=
    match ds with
    | [] => false
    | [_] => true
    | d :: _ => negb (d =? 48)
    end in
  let followed :=
    match rest with
    | c :: _ => (c =? ord ".") || (c =? ord "e") || (c =? ord "E")
    | [] => false
    end in
  if wellformed && negb followed then
    let n := Z.of_N (digits_value ds 0) in
    Some (if neg then (- n)%Z else n, rest)
  else None.

(** A duplicate key keeps its place and takes the later value. *)
Fixpoint obj_set (k : str) (v : json) (l : list (str * json)) : list (str * json) :=
  match l with
  | [] => [(k, v)]
  | (k', v') :: l' => if decide (k = k') then (k, v) :: l' else (k', v') :: obj_set k v l'
  end.

Fixpoint parse_value (fuel : nat) (s : str) : option (json * str) :=
  match fuel with
  | O => None
  | S fuel' =>
      match s with
      | [] => None
      | c :: s' =>
          if c =? dquote then
            '(t, r) ← scan_string s' []; Some (JStr t, r)
          else if c =? ord "{" then
            match skip_ws s' with
            | d :: r => if d =? ord "}" then Some (JObj [], r)
                        else parse_members fuel' (d :: r) []
            | [] => None
            end
          else if c =? ord "[" then
            match skip_ws s' with
            | d :: r => if d =? ord "]" then Some (JArr [], r)
                        else parse_elems fuel' (d :: r) []
            | [] => None
            end
          else if startswith (lit "null") s then Some (JNull, drop 4 s)
          else if startswith (lit "true") s then Some (JBool true, drop 4 s)
          else if startswith (lit "false") s then Some (JBool false, drop 5 s)
          else '(z, r) ← scan_int s; Some (JInt z, r)
      end
  end
with parse_elems (fuel : nat) (s : str) (acc : list json) : option (json * str) :=
  match fuel with
  | O => None
  | S fuel' =>
      '(v, r) ← parse_value fuel' s;
      match skip_ws r with
      | c :: r' =>
          if c =? ord "]" then Some (JArr (rev (v :: acc)), r')
          else if c =? ord "," then parse_elems fuel' (skip_ws r') (v :: acc)
          else None
      | [] => None
      end
  end
with parse_members (fuel : nat) (s : str) (acc : list (str * json)) : option (json * str) :=
  match fuel with
  | O => None
  | S fuel' =>
      match s with
      | q :: s1 =>
          if q =? dquote then
            '(k, r) ← scan_string s1 [];
            match skip_ws r with
            | c :: r1 =>
                if c =? ord ":" then
                  '(v, r2) ← parse_value fuel' (skip_ws r1);
                  match skip_ws r2 with
                  | d :: r3 =>
                      if d =? ord "}" then Some (JObj (obj_set k v acc), r3)
                      else if d =? ord "," then
                        parse_members fuel' (skip_ws r3) (obj_set k v acc)
                      else None
                  | [] => None
                  end
                else None
            | [] => None
            end
          else None
      | [] => None
      end
  end.

Definition loads (s : str) : result json :=
  match parse_value (2 * length s + 2) (skip_ws s) with
  | Some (v, r) =>
      match skip_ws r with
      | [] => Ok v
      | _ :: _ => Raise decode_error
      end
  | None => Raise decode_error
  end.

Definition hex_digit (n : N) : char :=
  if n <? 10 then 48 + n else 87 + n.

Definition escape_char (c : char) : str :=
  if c =? dquote then [ord "\"; dquote]
  else if c =? ord "\" then [ord "\"; ord "\"]
  else if c =? 10 then lit "\n"
  else if c =? 13 then lit "\r"
  else if c =? 9 then lit "\t"
  else if c =? 8 then lit "\b"
  else if c =? 12 then lit "\f"
  else if c <? 32 then lit "\u00" ++ [hex_digit (c / 16); hex_digit (c mod 16)]
  else [c].

Definition dump_string (s : str) : str :=
  quoted (concat (map escape_char s)).

Fixpoint decimal_fuel (fuel : nat) (n : N) (acc : str) : str :=
  match fuel with
  | O => acc
  | S fuel' =>
      let acc' := (48 + n mod 10) :: acc in
      if n / 10 =? 0 then acc' else decimal_fuel fuel' (n / 10) acc'
  end.

Definition decimal (z : Z) : str :=
  let n := Z.abs_N z in
  let ds := decimal_fuel (S (N.to_nat (N.log2 n))) n [] in
  if (z <? 0)%Z then ord "-" :: ds else ds.

(** A line feed and the indentation of [level] levels of two spaces. *)
Definition newline_indent (level : nat) : str :=
  10 :: concat (replicate level (lit "  ")).

(** Items on lines of their own, one level deeper, between [open] and
    [close]. *)
Definition dump_block (level : nat) (open close : str) (items : list str) : str :=
  match items with
  | [] => open ++ close
  | _ :: _ =>
      open ++ newline_indent (S level)
      ++ join (lit "," ++ newline_indent (S level)) items
      ++ newline_indent level ++ close
  end.

Fixpoint dump (level : nat) (v : json) : str :=
  match v with
  | JNull => lit "null"
  | JBool true => lit "true"
  | JBool false => lit "false"
  | JInt z => decimal z
  | JStr s => dump_string s
  | JArr l => dump_block level (lit "[") (lit "]") (map (dump (S level)) l)
  | JObj l =>
      dump_block level (lit "{") (lit "}")
        (map (λ '(k, x), dump_string k ++ lit ": " ++ dump (S level) x) l)
  end.

Definition dumps (v : json) : result str := Ok (dump 0 v).

#[export] Instance lib : PyLib := {|
  lower := map lower_char;
  json_value := json;
  json_loads := loads;
  json_dumps := dumps;
|}.

(** *** Notions for the round trip of the reference parser and serialiser *)

(** The characters of the strings that the parser builds. *)
Definition plain_char (c : char) : Prop :=
  32 ≤ c ∨ c = 8 ∨ c = 9 ∨ c = 10 ∨ c = 12 ∨ c = 13.

(** The values that the parser builds: plain strings, no repeated key. *)
Inductive wf : json → Prop :=
| wf_null : wf JNull
| wf_bool b : wf (JBool b)
| wf_int z : wf (JInt z)
| wf_str s : Forall plain_char s → wf (JStr s)
| wf_arr l : Forall wf l → wf (JArr l)
| wf_obj l :
    NoDup (map fst l) → Forall (λ kv, Forall plain_char kv.1 ∧ wf kv.2) l → wf (JObj l).

(** Calls the parser needs to read a value back. *)
Fixpoint size (v : json) : nat :=
  match v with
  | JArr l => S (list_sum (map (λ x, S (size x)) l))
  | JObj l => S (list_sum (map (λ '(_, x), S (size x)) l))
  | _ => 1
  end.

(** What follows a value in serialised text: nothing, a comma or a line feed. *)
Definition delimited (rest : str) : Prop :=
  match rest with
  | [] => True
  | c :: _ => c = 44 ∨ c = 10
  end.

(** A character a serialised value can begin with. *)
Definition value_head (c : char) : Prop :=
  json_ws c = false ∧ c ≠ ord "]" ∧ c ≠ ord "}".

(** With [fuel], the parser reads back what [dump] printed. *)
Definition roundtrips (fuel : nat) : Prop :=
  ∀ v level rest, (size v ≤ fuel)%nat → wf v → delimited rest →
    parse_value fuel (dump level v ++ rest) = Some (v, rest).

(** One member of a serialised object. *)
Definition member_text (level : nat) (kv : str * json) : str :=
  let '(k, x) := kv in dump_string k ++ lit ": " ++ dump (S level) x.

End RefLib.

(** ** Notions used to state the properties *)

(** [post] does not continue a run of characters satisfying [p]. *)
Definition ends_run (p : char → bool) (post : str) : Prop :=
  ∀ c post', post = c :: post' → p c = false.

(** [s] begins with [POST], whitespace, and the maximal run [u] of
    non-whitespace characters, which begins with [/]; [post] follows. *)
Definition post_run (s u post : str) : Prop :=
  ∃ ws, s = POST ++ ws ++ u ++ post ∧
    ws ≠ [] ∧ Forall (λ c, isspace c = true) ws ∧
    head u = Some slash ∧ Forall (λ c, isspace c = false) u ∧
    ends_run nonspace post.

(** Such a declaration stands at offset [i] of [text]. *)
Definition run_at (text : str) (i : nat) (u : str) : Prop :=
  (i ≤ length text)%nat ∧ ∃ post, post_run (drop i text) u post.

(** The same with the run split into its [/] and a non-empty tail: what the
    pattern [POST\s+(/\S+)] matches at the head of [s]. *)
Definition post_decl (s u post : str) : Prop :=
  ∃ ws r, s = POST ++ ws ++ u ++ post ∧
    ws ≠ [] ∧ Forall (λ c, isspace c = true) ws ∧
    u = slash :: r ∧ r ≠ [] ∧ Forall (λ c, isspace c = false) r ∧
    ends_run nonspace post.

Definition declared_at (text : str) (i : nat) (u : str) : Prop :=
  (i ≤ length text)%nat ∧ ∃ post, post_decl (drop i text) u post.

(** The offset at which the match that starts at offset [j] with group [v]
    ends: after [POST], the white space that follows it, and [v]. *)
Definition match_end (text : str) (j : nat) (v : str) : nat :=
  (j + length POST + length (span_of isspace (drop (j + length POST) text)).1 + length v)%nat.

(** The elements of [l] in the order of their first occurrences. *)
Fixpoint first_occurrences (l : list str) : list str :=
  match l with
  | [] => []
  | x :: l' => x :: filter (λ y, y ≠ x) (first_occurrences l')
  end.

(** The minimum-length test of [json_blocks_near]. *)
Definition long (raw : str) : Prop := (50 < length raw)%nat.
#[local] Instance long_dec raw : Decision (long raw) := _.

Definition brace_free (s : str) : Prop := Forall (λ c, c ≠ lbrace ∧ c ≠ rbrace) s.

(** An object literal with one nested object:
    [{] k1 [{] k2 [}] k3 [}]. *)
Definition nested (k1 k2 k3 : str) : str :=
  lbrace :: (k1 ++ lbrace :: k2 ++ rbrace :: k3) ++ [rbrace].

(** File order: [f] does not come after [g]. *)
Definition name_le (f g : pdf) : Prop := str_ltb (pdf_name g) (pdf_name f) = false.

(** The [(FileName, URL)] pairs a file contributes, in order: one with an
    empty URL for a blank text, else one per discovered endpoint. *)
Definition pdf_entries (f : pdf) : list (str * str) :=
  let text := read_pdf_text f in
  if truthy (strip text) then map (pair (pdf_name f)) (find_urls text)
  else [(pdf_name f, [])].

Definition entry (r : row) : str * str := (FileName r, URL r).

(** The rows carry the indices [idx], [idx + 1], ... in order. *)
Definition indexed_from (idx : Z) (rows : list row) : Prop :=
  ∀ i r, rows !! i = Some r → Index r = (idx + Z.of_nat i)%Z.

Section Rules.
Context `{PyLib}.

(** Which rule of [pick_io] gave the input, and which the output: the
    keyword scan ([true]) or the longest-block fallback ([false]). *)
Definition input_by_rule (blocks : list strobj) : bool :=
  truthy (chars (next_or_empty is_req blocks)).
Definition output_by_rule (blocks : list strobj) : bool :=
  truthy (chars (next_or_empty is_resp blocks)).
End Rules.

(** ** Notions for the properties of the scan, the selection and the rows *)

(** The five full-width characters that [read_pdf_text] replaces. *)
Definition fullwidth (c : char) : Prop :=
  c = 65306 ∨ c = 65288 ∨ c = 65289 ∨ c = 65294 ∨ c = 65293.

(** The lines that [read_pdf_text] joins: the trimmed, replaced texts of the
    pages with a text. *)
Definition page_lines (pages : list (option str)) : list str :=
  map (λ t, strip (map halfwidth t))
      (filter (λ t, t ≠ []) (map (default []) pages)).

Definition blank (s : str) : Prop := Forall (λ c, isspace c = true) s.

(** What a character adds to the nesting depth. *)
Definition brace_step (c : char) : Z :=
  if c =? lbrace then 1%Z else if c =? rbrace then (-1)%Z else 0%Z.

(** Net nesting depth of a text: opening minus closing braces. *)
Fixpoint depth (s : str) : Z :=
  match s with
  | [] => 0%Z
  | c :: s' => (brace_step c + depth s')%Z
  end.

(** A balanced span: the depth is positive inside and returns to zero at the
    end, not before. *)
Definition balanced (b : str) : Prop :=
  depth b = 0%Z ∧ ∀ k, (0 < k < length b)%nat → (0 < depth (take k b))%Z.

(** [bs] stand in [s] one after the other, with no opening brace between
    them, up to the end of [s]. *)
Inductive tiles : list str → str → Prop :=
| tiles_nil : tiles [] []
| tiles_snoc bs s gap b :
    tiles bs s → Forall (λ c, c ≠ lbrace) gap → tiles (bs ++ [b]) (s ++ gap ++ b).

(** [bs] stand in [s] in this order, without overlap. *)
Inductive apart : list str → str → Prop :=
| apart_nil s : apart [] s
| apart_cons gap b bs s : apart bs s → apart (b :: bs) (gap ++ b ++ s).

(** [x] is the first element of [l] that satisfies [p]. *)
Definition first_with {A} (p : A → bool) (l : list A) (x : A) : Prop :=
  ∃ pre post, l = pre ++ x :: post ∧ p x = true ∧ Forall (λ b, p b = false) pre.

(** [x] is the first of the longest elements of [l]. *)
Definition longest_first (l : list strobj) (x : strobj) : Prop :=
  ∃ pre post, l = pre ++ x :: post ∧
    Forall (λ b, length (chars b) < length (chars x))%nat pre ∧
    Forall (λ b, length (chars b) ≤ length (chars x))%nat post.

(** The candidates other than [x], by identity. *)
Definition others (x : strobj) (blocks : list strobj) : list strobj :=
  List.filter (λ b, negb (same_obj b x)) blocks.

(** [r] with its index moved by [k]. *)
Definition shift (k : Z) (r : row) : row :=
  {| Index := (Index r + k)%Z; FileName := FileName r; URL := URL r; Method := Method r;
     Input := Input r; ResponseCode := ResponseCode r; Output := Output r |}.

(** ** Concrete inputs *)
Module Ex.

(** ["k":"v"] *)
Definition field (k v : string) : str := quoted (lit k) ++ lit ":" ++ quoted (lit v).

(** [{"a":{"b":1}}] and the text around it. *)
Definition ab_k1 : str := quoted (lit "a") ++ lit ":".
Definition ab_k2 : str := quoted (lit "b") ++ lit ":1".
Definition ab_block : str := nested ab_k1 ab_k2 [].
Definition ab_text : str := lit "prefix " ++ ab_block ++ lit " suffix".

(** [{"custId":"A123456789","data":{"amount":"100","currency":"TWD"}}] *)
Definition req_k1 : str := field "custId" "A123456789" ++ lit "," ++ quoted (lit "data") ++ lit ":".
Definition req_k2 : str := field "amount" "100" ++ lit "," ++ field "currency" "TWD".
Definition req_block : str := nested req_k1 req_k2 [].
Definition req_text : str := lit "prefix " ++ req_block ++ lit " suffix".

(** [{"rspCode":"0000","rspMsg":"transaction completed successfully"}] *)
Definition resp_block : str :=
  lit "{" ++ field "rspCode" "0000" ++ lit "," ++
  field "rspMsg" "transaction completed successfully" ++ lit "}".

(** [{"rspCode":"0","custId":"A1"}] *)
Definition both_block : str :=
  lit "{" ++ field "rspCode" "0" ++ lit "," ++ field "custId" "A1" ++ lit "}".

Definition abab_text : str := lit "POST /a POST /b POST /a".
Definition bare_slash_text : str := lit "POST / x".
Definition overlap_text : str := lit "POST /POST /a".

(** A text with the span [{}] and a longer one. *)
Definition pay_text : str := lit "POST /v1/pay {} " ++ req_block ++ lit " -> " ++ resp_block.

(** A declaration followed by a response block only. *)
Definition resp_text : str := lit "POST /v1/query " ++ resp_block.
Definition resp_pdf : pdf := {| pdf_name := lit "query.pdf"; pdf_pages := [Some resp_text] |}.

Definition notes_pdf : pdf :=
  {| pdf_name := lit "notes.pdf";
     pdf_pages := [Some (lit "Release notes: nothing to call here.")] |}.
Definition blank_pdf : pdf :=
  {| pdf_name := lit "empty.pdf"; pdf_pages := [None; Some (lit "  ")] |}.
Definition pay_pdf : pdf :=
  {| pdf_name := lit "pay.pdf";
     pdf_pages := [Some pay_text; Some (lit "POST /v1/refund see above")] |}.
Definition acct_pdf : pdf :=
  {| pdf_name := lit "acct.pdf";
     pdf_pages := [Some (lit "POST /v1/open and POST /v1/close") ] |}.

End Ex.

(** * Properties *)

(** ** Strings *)

Lemma startswith_app k r : startswith k (k ++ r) = true.
Proof. induction k as [|x k IH]; simpl; [done|]. by rewrite N.eqb_refl, IH. Qed.

Lemma startswith_inv k s : startswith k s = true → ∃ r, s = k ++ r.
Proof.
  revert s; induction k as [|x k IH]; intros s Hs; simpl in *; [by exists s|].
  destruct s as [|y s]; [done|].
  apply andb_true_iff in Hs as [Hxy Hk]. apply N.eqb_eq in Hxy as ->.
  destruct (IH _ Hk) as [r ->]. by exists r.
Qed.

(** [contains k s] is [k in s]: [k] is a contiguous part of [s]. *)
Lemma contains_infix k s : contains k s = true ↔ ∃ pre post, s = pre ++ k ++ post.
Proof.
  split.
  - induction s as [|c s IH]; simpl; intros Hc.
    + rewrite orb_false_r in Hc. apply startswith_inv in Hc as [r ->]. by exists [], r.
    + apply orb_true_iff in Hc as [Hc|Hc].
      * apply startswith_inv in Hc as [r ->]. by exists [], r.
      * destruct (IH Hc) as (pre & post & ->). by exists (c :: pre), post.
  - intros (pre & post & ->). induction pre as [|c pre IH]; simpl.
    + assert (Hs := startswith_app k post).
      destruct (k ++ post); simpl; by rewrite Hs.
    + rewrite IH. apply orb_true_r.
Qed.

Lemma find_str_infix k pre post : is_Some (find_str k (pre ++ k ++ post)).
Proof.
  induction pre as [|c pre IH]; simpl.
  - assert (Hs := startswith_app k post).
    destruct (k ++ post); simpl; rewrite Hs; eauto.
  - destruct (startswith k (c :: pre ++ k ++ post)); [eauto|].
    destruct IH as [i ->]. simpl. eauto.
Qed.

(** [find_str] gives the first offset at which [k] stands. *)
Lemma find_str_Some k s i :
  find_str k s = Some i →
  (i ≤ length s)%nat ∧ startswith k (drop i s) = true ∧
  ∀ j, (j < i)%nat → startswith k (drop j s) = false.
Proof.
  revert i; induction s as [|c s IH]; intros i; simpl.
  - destruct (startswith k []) eqn:E; [|done].
    intros [= <-]. split; [simpl; lia|]. split; [done|intros; lia].
  - destruct (startswith k (c :: s)) eqn:E.
    + intros [= <-]. split; [simpl; lia|]. split; [done|intros; lia].
    + destruct (find_str k s) as [i'|] eqn:E'; [|done]. simpl. intros [= <-].
      destruct (IH _ eq_refl) as (Hi & Hs & Hj). split; [simpl; lia|]. split; [done|].
      intros [|j] Hlt; [done|]. simpl. apply Hj. lia.
Qed.

Lemma index_of_Some c s p :
  index_of c s = Some p → (p < length s)%nat ∧ s !! p = Some c.
Proof.
  revert p; induction s as [|x s IH]; intros p; simpl; [done|].
  destruct (N.eqb_spec x c) as [->|Hne].
  - intros [= <-]. split; [lia|done].
  - destruct (index_of c s) as [q|]; [|done]. simpl. intros [= <-].
    destruct (IH _ eq_refl). split; [lia|done].
Qed.

Lemma index_of_skip c pre rest :
  Forall (λ x, x ≠ c) pre → index_of c (pre ++ c :: rest) = Some (length pre).
Proof.
  induction 1 as [|x pre Hx _ IH]; simpl.
  - by rewrite N.eqb_refl.
  - destruct (N.eqb_spec x c); [done|]. by rewrite IH.
Qed.

Lemma index_of_None c s : Forall (λ x, x ≠ c) s → index_of c s = None.
Proof.
  induction 1 as [|x s Hx _ IH]; simpl; [done|].
  destruct (N.eqb_spec x c); [done|]. by rewrite IH.
Qed.

Lemma find_char_Some c s i p :
  find_char c s i = Some p → (i ≤ p < length s)%nat ∧ s !! p = Some c.
Proof.
  unfold find_char. destruct (index_of c (drop i s)) as [q|] eqn:E; [|done].
  simpl. intros [= <-]. apply index_of_Some in E as [Hq Hc].
  rewrite length_drop in Hq. rewrite lookup_drop in Hc. split; [lia|done].
Qed.

Lemma lstrip_nonspace c s : isspace c = false → lstrip (c :: s) = c :: s.
Proof. intros Hc. simpl. by rewrite Hc. Qed.

(** Trimming leaves a string alone that begins and ends with characters
    other than whitespace. *)
Lemma strip_delimited a s b :
  isspace a = false → isspace b = false → strip (a :: s ++ [b]) = a :: s ++ [b].
Proof.
  intros Ha Hb. unfold strip, rstrip. rewrite lstrip_nonspace by done.
  change (a :: s ++ [b]) with ((a :: s) ++ [b]).
  rewrite rev_unit, lstrip_nonspace by done.
  change (b :: rev (a :: s)) with ([b] ++ rev (a :: s)).
  by rewrite rev_app_distr, rev_involutive.
Qed.

(** [<] on strings is a strict total order. *)
Lemma str_ltb_irrefl a : str_ltb a a = false.
Proof. induction a as [|x a IH]; simpl; [done|]. by rewrite N.ltb_irrefl, N.eqb_refl, IH. Qed.

Lemma str_ltb_trans a b c : str_ltb a b = true → str_ltb b c = true → str_ltb a c = true.
Proof.
  revert b c; induction a as [|x a IH]; intros [|y b] [|z c]; simpl; try done.
  rewrite !orb_true_iff, !andb_true_iff, !N.ltb_lt, !N.eqb_eq.
  intros [Hxy|[-> Hab]] [Hyz|[-> Hbc]]; [left; lia|by left|by left|right].
  split; [done|]. by eapply IH.
Qed.

Lemma str_ltb_total a b : str_ltb a b = false → str_ltb b a = false → a = b.
Proof.
  revert b; induction a as [|x a IH]; intros [|y b]; simpl; try done.
  rewrite !orb_false_iff, !andb_false_iff, !N.ltb_ge, !N.eqb_neq.
  intros [Hxy Hab] [Hyx Hba].
  assert (x = y) as -> by lia. f_equal. apply IH; [destruct Hab|destruct Hba]; done.
Qed.

(** ** Endpoint discovery *)

Lemma span_of_spec p s a b :
  span_of p s = (a, b) →
  s = a ++ b ∧ Forall (λ c, p c = true) a ∧ ends_run p b.
Proof.
  revert a b; induction s as [|c s IH]; intros a b; simpl.
  - intros [= <- <-]. repeat split; [constructor|]. intros ? ? [=].
  - destruct (p c) eqn:Hc.
    + destruct (span_of p s) as [a' b'] eqn:E. intros [= <- <-].
      destruct (IH _ _ eq_refl) as (-> & Ha & Hb).
      repeat split; [by constructor|done].
    + intros [= <- <-]. repeat split; [constructor|]. by intros ? ? [= <- <-].
Qed.

Lemma span_of_app p a b :
  Forall (λ c, p c = true) a → ends_run p b → span_of p (a ++ b) = (a, b).
Proof.
  intros Ha Hb. induction Ha as [|c a Hc Ha IH]; simpl.
  - destruct b as [|c b]; [done|]. simpl. by rewrite (Hb c b eq_refl).
  - by rewrite Hc, IH.
Qed.

Lemma strip_prefix_spec k s r : strip_prefix k s = Some r ↔ s = k ++ r.
Proof.
  revert s; induction k as [|x k IH]; intros s; simpl.
  - split; [by intros [= ->]|by intros ->].
  - destruct s as [|y s]; [split; done|].
    destruct (N.eqb_spec x y) as [->|Hne].
    + rewrite IH. split; [by intros ->|by intros [= ->]].
    + split; [done|]. intros [= ? ?]. done.
Qed.

Lemma match_at_spec s u post : match_at s = Some (u, post) ↔ post_decl s u post.
Proof.
  unfold match_at, post_decl. split.
  - destruct (strip_prefix POST s) as [s1|] eqn:E1; [|done].
    apply strip_prefix_spec in E1 as ->.
    destruct (span_of isspace s1) as [ws s2] eqn:E2.
    apply span_of_spec in E2 as (-> & Hws & Hs2).
    destruct ws as [|w ws]; [done|]. destruct s2 as [|c s3]; [done|].
    destruct (N.eqb_spec c slash) as [->|]; [|done].
    destruct (span_of nonspace s3) as [r rest] eqn:E3.
    apply span_of_spec in E3 as (-> & Hr & Hrest).
    destruct r as [|r0 r]; [done|]. intros [= <- <-].
    exists (w :: ws), (r0 :: r). repeat split; try done.
    eapply Forall_impl; [exact Hr|]. intros c. unfold nonspace. by intros ?%negb_true_iff.
  - intros (ws & r & -> & Hne & Hws & -> & Hr0 & Hr & Hpost).
    rewrite (proj2 (strip_prefix_spec POST _ _) eq_refl).
    assert (E2 : span_of isspace (ws ++ (slash :: r) ++ post) = (ws, (slash :: r) ++ post)).
    { apply span_of_app; [done|]. by intros ? ? [= <- <-]. }
    rewrite E2. destruct ws as [|w ws]; [done|]. simpl.
    assert (E3 : span_of nonspace (r ++ post) = (r, post)).
    { apply span_of_app; [|done]. eapply Forall_impl; [exact Hr|].
      intros c Hc. unfold nonspace. by rewrite Hc. }
    change (slash =? slash) with true. cbv iota. rewrite E3. by destruct r.
Qed.

Lemma span_of_app_all p a b :
  Forall (λ c, p c = true) a →
  span_of p (a ++ b) = ((a ++ (span_of p b).1), (span_of p b).2).
Proof.
  induction 1 as [|c a Hc _ IH]; simpl; [by destruct (span_of p b)|].
  by rewrite Hc, IH.
Qed.

(** The first attempt of the engine decides: whenever the text can be split
    as the pattern asks, with any lengths for the two repetitions, the greedy
    attempt [match_at] succeeds, and its group extends the path of that
    split. *)
Lemma match_at_greedy s ws r rest' :
  s = POST ++ ws ++ slash :: r ++ rest' →
  ws ≠ [] → Forall (λ c, isspace c = true) ws →
  r ≠ [] → Forall (λ c, isspace c = false) r →
  ∃ r' rest, match_at s = Some (slash :: r ++ r', rest) ∧ rest' = r' ++ rest.
Proof.
  intros -> Hne Hws Hr0 Hr. unfold match_at.
  rewrite (proj2 (strip_prefix_spec POST _ _) eq_refl).
  assert (E2 : span_of isspace (ws ++ slash :: r ++ rest') = (ws, slash :: r ++ rest')).
  { apply span_of_app; [done|]. by intros ? ? [= <- <-]. }
  rewrite E2. destruct ws as [|w ws]; [done|].
  change (slash =? slash) with true. cbv iota.
  rewrite span_of_app_all.
  2:{ eapply Forall_impl; [exact Hr|]. intros c Hc. unfold nonspace. by rewrite Hc. }
  destruct (span_of nonspace rest') as [r' rest] eqn:E3. simpl.
  apply span_of_spec in E3 as (-> & _ & _).
  exists r', rest. by destruct r.
Qed.

Lemma post_decl_length s u post :
  post_decl s u post → (length post < length s)%nat ∧ drop (length s - length post) s = post.
Proof.
  intros (ws & r & -> & _ & _ & -> & _).
  rewrite !app_assoc. rewrite length_app. split; [simpl; lia|].
  replace (_ + _ - _)%nat with (length ((POST ++ ws) ++ slash :: r)) by lia.
  by rewrite drop_app_length.
Qed.

Lemma finditer_fuel_sound fuel pos s i u :
  (i, u) ∈ finditer_fuel fuel pos s →
  ∃ k post, i = (pos + k)%nat ∧ (k ≤ length s)%nat ∧ match_at (drop k s) = Some (u, post).
Proof.
  revert pos s; induction fuel as [|fuel IH]; intros pos s; simpl; [by intros ?%elem_of_nil|].
  destruct (match_at s) as [[v rest]|] eqn:E.
  - intros [[= -> ->]|Hin]%elem_of_cons.
    + exists 0%nat, rest. rewrite Nat.add_0_r. repeat split; [lia|done].
    + destruct (IH _ _ Hin) as (k & post & -> & Hk & Hm).
      apply match_at_spec, post_decl_length in E as [Hlt Hd].
      exists (length s - length rest + k)%nat, post. repeat split; [lia|lia|].
      by rewrite <- drop_drop, Hd.
  - destruct s as [|c s]; [by intros ?%elem_of_nil|].
    intros Hin. destruct (IH _ _ Hin) as (k & post & -> & Hk & Hm).
    exists (S k), post. repeat split; [lia|simpl; lia|done].
Qed.

Lemma finditer_sound text i u : (i, u) ∈ finditer text → declared_at text i u.
Proof.
  intros Hin. apply finditer_fuel_sound in Hin as (k & post & -> & Hk & Hm).
  split; [done|]. exists post. by apply match_at_spec.
Qed.

Lemma finditer_fuel_enough fuel fuel' pos s :
  (length s < fuel)%nat → (length s < fuel')%nat →
  finditer_fuel fuel pos s = finditer_fuel fuel' pos s.
Proof.
  revert fuel' pos s; induction fuel as [|fuel IH]; intros fuel' pos s Hf Hf'; [lia|].
  destruct fuel' as [|fuel']; [lia|]. simpl.
  destruct (match_at s) as [[v rest]|] eqn:E.
  - apply match_at_spec, post_decl_length in E as [Hlt _].
    f_equal. apply IH; lia.
  - destruct s as [|c s]; [done|]. simpl in *. apply IH; lia.
Qed.

Lemma finditer_fuel_sorted fuel pos s :
  Forall (λ p, pos ≤ p.1)%nat (finditer_fuel fuel pos s) ∧
  StronglySorted (λ p q, p.1 < q.1)%nat (finditer_fuel fuel pos s).
Proof.
  revert pos s; induction fuel as [|fuel IH]; intros pos s; simpl; [split; constructor|].
  destruct (match_at s) as [[v rest]|] eqn:E.
  - apply match_at_spec, post_decl_length in E as [Hlt _].
    destruct (IH (pos + (length s - length rest))%nat rest) as [Hge Hs]. split.
    + constructor; [simpl; lia|]. eapply Forall_impl; [exact Hge|]. simpl. lia.
    + constructor; [done|]. eapply Forall_impl; [exact Hge|]. simpl. lia.
  - destruct s as [|c s]; [split; constructor|].
    destruct (IH (S pos) s) as [Hge Hs]. split; [|done].
    eapply Forall_impl; [exact Hge|]. simpl. lia.
Qed.

Lemma POST_chars : POST = [80; 79; 83; 84].
Proof. reflexivity. Qed.

Lemma decl_space_then_P ws r n c :
  Forall (λ c, isspace c = true) ws → Forall (λ c, isspace c = false) r →
  (POST ++ ws ++ slash :: r) !! n = Some c → isspace c = true →
  (POST ++ ws ++ slash :: r) !! S n = Some 80 → False.
Proof.
  intros Hws Hr Hn Hc HP. rewrite POST_chars in *.
  apply lookup_app_Some in Hn as [Hn|[Hlen Hn]].
  { do 4 (destruct n as [|n]; [simplify_eq/=; done|]). done. }
  apply lookup_app_Some in HP as [HP|[_ HP]].
  { simpl in Hlen. do 5 (destruct n as [|n]; [simplify_eq/=; lia|]). done. }
  simpl in *. replace (n - 3)%nat with (S (n - 4)) in HP by lia.
  set (m := (n - 4)%nat) in *.
  apply lookup_app_Some in Hn as [Hn|[Hlen' Hn]].
  - apply lookup_app_Some in HP as [HP|[Hl HP]].
    + rewrite Forall_lookup in Hws. by specialize (Hws _ _ HP).
    + apply lookup_lt_Some in Hn.
      replace (S m - length ws)%nat with 0%nat in HP by lia. by simplify_eq/=.
  - destruct (m - length ws)%nat as [|j] eqn:Ej; simplify_eq/=; try done.
    rewrite Forall_lookup in Hr. specialize (Hr _ _ Hn). simpl in Hr. congruence.
Qed.

Lemma match_at_starts_P s u post : match_at s = Some (u, post) → s !! 0%nat = Some 80.
Proof. intros (ws & r & -> & _)%match_at_spec. done. Qed.

Lemma finditer_fuel_complete fuel pos pre s' u post :
  (length (pre ++ s') < fuel)%nat →
  match_at s' = Some (u, post) →
  (∀ c, last pre = Some c → isspace c = true) →
  ((pos + length pre)%nat, u) ∈ finditer_fuel fuel pos (pre ++ s').
Proof.
  revert pos pre; induction fuel as [|fuel IH]; intros pos pre Hf Hm Hlast; [lia|].
  destruct pre as [|c0 pre1].
  { simpl. rewrite Hm, Nat.add_0_r. apply elem_of_cons. by left. }
  cbn [finditer_fuel].
  destruct (match_at ((c0 :: pre1) ++ s')) as [[v rest]|] eqn:E.
  - apply elem_of_cons. right.
    pose proof E as E'. apply match_at_spec in E' as (ws & r & Hs & Hne & Hws & -> & Hr0 & Hr & Hpost).
    set (M := POST ++ ws ++ slash :: r).
    assert (HsM : (c0 :: pre1) ++ s' = M ++ rest).
    { rewrite Hs. unfold M. by rewrite <- !app_assoc. }
    assert (Hle : (length M ≤ length (c0 :: pre1))%nat).
    { destruct (decide (length M ≤ length (c0 :: pre1))%nat) as [|Hgt]; [done|]. exfalso.
      set (n := length pre1).
      destruct (last (c0 :: pre1)) as [c|] eqn:El.
      2:{ by apply last_None in El. }
      assert (Hc := Hlast c eq_refl).
      assert (Hn : M !! n = Some c).
      { rewrite last_lookup in El. simpl in El.
        assert (((c0 :: pre1) ++ s') !! n = Some c) as Hx.
        { apply lookup_app_l_Some. done. }
        rewrite HsM in Hx. apply lookup_app_Some in Hx as [|[? _]]; [done|]. simpl in *. lia. }
      assert (HP : M !! S n = Some 80).
      { assert (((c0 :: pre1) ++ s') !! S n = Some 80) as Hx.
        { rewrite lookup_app_r by (simpl; lia).
          replace (S n - length (c0 :: pre1))%nat with 0%nat by (simpl; lia).
          by eapply match_at_starts_P. }
        rewrite HsM in Hx. apply lookup_app_Some in Hx as [|[? _]]; [done|]. simpl in *. lia. }
      by eapply (decl_space_then_P ws r n c). }
    assert (Hpre : c0 :: pre1 = M ++ drop (length M) (c0 :: pre1)).
    { rewrite <- (take_drop (length M) (c0 :: pre1)) at 1. f_equal.
      rewrite <- (take_app_le _ s') by done. rewrite HsM.
      by rewrite take_app_length. }
    set (pre2 := drop (length M) (c0 :: pre1)) in *.
    assert (Hrest : rest = pre2 ++ s').
    { rewrite Hpre, <- app_assoc in HsM. by apply app_inv_head in HsM. }
    assert (Hlen : (length ((c0 :: pre1) ++ s') - length rest = length M)%nat).
    { rewrite HsM, length_app. lia. }
    rewrite Hlen, Hrest.
    replace (pos + length (c0 :: pre1))%nat with (pos + length M + length pre2)%nat.
    2:{ unfold pre2. rewrite length_drop. lia. }
    apply IH; [|done|].
    + rewrite <- Hrest. rewrite HsM, length_app in Hf.
      assert (0 < length M)%nat by (unfold M; rewrite length_app; simpl; lia). lia.
    + intros c Hc. apply Hlast. rewrite Hpre, last_app, Hc. done.
  - simpl. replace (pos + S (length pre1))%nat with (S pos + length pre1)%nat by lia.
    apply IH; [simpl in Hf; lia|done|].
    intros c Hc. apply Hlast. rewrite last_cons, Hc. done.
Qed.

Lemma finditer_complete text i u :
  declared_at text i u →
  (∀ c, last (take i text) = Some c → isspace c = true) →
  (i, u) ∈ finditer text.
Proof.
  intros [Hi [post Hd]] Hlast. unfold finditer.
  rewrite <- (take_drop i text) at 2.
  replace i with (0 + length (take i text))%nat at 1 by (rewrite length_take; lia).
  apply finditer_fuel_complete with post; [|by apply match_at_spec|done].
  rewrite take_drop. lia.
Qed.

Lemma find_urls_fold (l urls : list str) (seen : gset str) :
  (∀ x, x ∈ seen ↔ x ∈ urls) →
  fst (foldl find_urls_step (urls, seen) l)
  = urls ++ filter (λ y, y ∉ urls) (first_occurrences l).
Proof.
  revert urls seen; induction l as [|x l IH]; intros urls seen Hseen; simpl.
  - by rewrite app_nil_r.
  - destruct (decide (x ∈ seen)) as [Hin|Hnin].
    + rewrite (IH _ _ Hseen). f_equal. apply Hseen in Hin.
      rewrite filter_cons_False by (intros Hn; by apply Hn).
      rewrite list_filter_filter. apply list_filter_iff. intros y. split; [|tauto].
      intros Hy. split; [done|]. intros ->. done.
    + assert (Hnin' : x ∉ urls) by (by rewrite <- Hseen).
      rewrite (IH (urls ++ [x]) ({[x]} ∪ seen)) by set_solver.
      rewrite filter_cons_True by done.
      rewrite <- app_assoc. f_equal. simpl. f_equal.
      rewrite list_filter_filter. apply list_filter_iff. intros y. set_solver.
Qed.

Lemma find_urls_first_occurrences text :
  find_urls text = first_occurrences (map snd (finditer text)).
Proof.
  unfold find_urls. rewrite (find_urls_fold _ [] ∅) by set_solver.
  simpl. induction (first_occurrences _) as [|y l IH]; [done|].
  rewrite filter_cons_True by apply not_elem_of_nil. by f_equal.
Qed.

Lemma elem_of_first_occurrences (l : list str) (x : str) : x ∈ first_occurrences l ↔ x ∈ l.
Proof.
  induction l as [|y l IH]; simpl; [done|].
  rewrite !elem_of_cons, list_elem_of_filter, IH.
  destruct (decide (x = y)); naive_solver.
Qed.

Lemma NoDup_first_occurrences l : NoDup (first_occurrences l).
Proof.
  induction l as [|y l IH]; simpl; constructor.
  - rewrite list_elem_of_filter. naive_solver.
  - by apply NoDup_filter.
Qed.

Lemma declared_infix text i u : declared_at text i u → ∃ pre post, text = pre ++ u ++ post.
Proof.
  intros [Hi (post & ws & r & Hd & _)].
  exists (take i text ++ POST ++ ws), post.
  rewrite <- (take_drop i text) at 1. rewrite Hd. by rewrite <- !app_assoc.
Qed.

Lemma find_urls_elem text u : u ∈ find_urls text ↔ ∃ i, (i, u) ∈ finditer text.
Proof.
  rewrite find_urls_first_occurrences, elem_of_first_occurrences, list_elem_of_fmap.
  split.
  - intros ([i v] & -> & Hin). by exists i.
  - intros [i Hin]. by exists (i, u).
Qed.


Lemma post_decl_run s u post :
  post_decl s u post ↔ post_run s u post ∧ (2 ≤ length u)%nat.
Proof.
  split.
  - intros (ws & r & -> & Hne & Hws & -> & Hr0 & Hr & Hpost). split.
    + exists ws. repeat split; try done. by constructor.
    + destruct r; [done|]. simpl. lia.
  - intros [(ws & -> & Hne & Hws & Hhd & Hu & Hpost) Hlen].
    destruct u as [|c r]; [done|]. injection Hhd as ->.
    exists ws, r. repeat split; try done.
    + destruct r; [simpl in Hlen; lia|done].
    + by inversion Hu.
Qed.

Lemma declared_at_run text i u :
  declared_at text i u ↔ run_at text i u ∧ (2 ≤ length u)%nat.
Proof.
  unfold declared_at, run_at. split.
  - intros [Hi [post [Hr Hl]%post_decl_run]]. eauto.
  - intros [[Hi [post Hr]] Hl]. split; [done|]. exists post. by apply post_decl_run.
Qed.

Lemma match_end_spec text pos v rest :
  match_at (drop pos text) = Some (v, rest) →
  match_end text pos v = (pos + (length (drop pos text) - length rest))%nat.
Proof.
  intros (ws & r & Hs & Hne & Hws & -> & Hr0 & Hr & Hpost)%match_at_spec.
  unfold match_end. rewrite <- drop_drop, Hs, drop_app_length.
  rewrite (span_of_app isspace ws ((slash :: r) ++ rest)); [|done|by intros ? ? [= <- <-]].
  rewrite !length_app. cbn [fst]. lia.
Qed.

Lemma match_end_gt text pos v rest :
  match_at (drop pos text) = Some (v, rest) → (pos < match_end text pos v)%nat.
Proof.
  intros Hm. rewrite (match_end_spec _ _ _ _ Hm).
  apply match_at_spec, post_decl_length in Hm as [Hlt _]. lia.
Qed.

Lemma finditer_fuel_apart fuel text pos :
  Forall (λ p, pos ≤ p.1)%nat (finditer_fuel fuel pos (drop pos text)) ∧
  StronglySorted (λ p q, match_end text p.1 p.2 ≤ q.1)%nat
    (finditer_fuel fuel pos (drop pos text)).
Proof.
  revert pos; induction fuel as [|fuel IH]; intros pos; cbn [finditer_fuel]; [split; constructor|].
  destruct (match_at (drop pos text)) as [[v rest]|] eqn:E.
  - pose proof (match_end_spec _ _ _ _ E) as He.
    apply match_at_spec, post_decl_length in E as [Hlt Hd].
    rewrite drop_drop in Hd. rewrite <- Hd at 2 4.
    destruct (IH (pos + (length (drop pos text) - length rest))%nat) as [Hge Hs]. split.
    + constructor; [simpl; lia|]. eapply Forall_impl; [exact Hge|]. simpl. lia.
    + constructor; [done|]. eapply Forall_impl; [exact Hge|]. simpl. lia.
  - destruct (drop pos text) as [|c s] eqn:Ed; [split; constructor|].
    assert (Hs : s = drop (S pos) text).
    { replace (S pos) with (pos + 1)%nat by lia. by rewrite <- drop_drop, Ed. }
    rewrite Hs. destruct (IH (S pos)) as [Hge Hsort]. split; [|done].
    eapply Forall_impl; [exact Hge|]. simpl. lia.
Qed.

Lemma finditer_apart text :
  StronglySorted (λ p q, match_end text p.1 p.2 ≤ q.1)%nat (finditer text).
Proof. apply (finditer_fuel_apart (S (length text)) text 0). Qed.

Lemma StronglySorted_elems {A} (R : A → A → Prop) (l : list A) x y :
  StronglySorted R l → x ∈ l → y ∈ l → x = y ∨ R x y ∨ R y x.
Proof.
  induction 1 as [|z l Hs IH Hz]; [by intros ?%elem_of_nil|].
  rewrite Forall_forall in Hz.
  intros [->|Hx]%elem_of_cons [->|Hy]%elem_of_cons; auto.
Qed.

(** A declaration that no earlier match covers is matched. *)
Lemma finditer_fuel_exact fuel text pos pre s' u post :
  drop pos text = pre ++ s' →
  (length (pre ++ s') < fuel)%nat →
  match_at s' = Some (u, post) →
  (∀ j v, (j, v) ∈ finditer_fuel fuel pos (pre ++ s') → (j < pos + length pre)%nat →
          (match_end text j v ≤ pos + length pre)%nat) →
  ((pos + length pre)%nat, u) ∈ finditer_fuel fuel pos (pre ++ s').
Proof.
  revert pos pre; induction fuel as [|fuel IH]; intros pos pre Hd Hf Hm Hfree; [lia|].
  destruct pre as [|c0 pre1].
  { simpl. rewrite Hm, Nat.add_0_r. apply elem_of_cons. by left. }
  cbn [finditer_fuel] in Hfree |- *.
  destruct (match_at ((c0 :: pre1) ++ s')) as [[v rest]|] eqn:E.
  - apply elem_of_cons. right.
    assert (Hend : match_end text pos v
                   = (pos + (length ((c0 :: pre1) ++ s') - length rest))%nat).
    { rewrite <- Hd. apply match_end_spec. by rewrite Hd. }
    pose proof E as E'. apply match_at_spec, post_decl_length in E' as [Hlt Hdr].
    set (n := (length ((c0 :: pre1) ++ s') - length rest)%nat) in *.
    assert (Hle : (n ≤ length (c0 :: pre1))%nat).
    { specialize (Hfree pos v). rewrite Hend in Hfree.
      assert (pos + n ≤ pos + length (c0 :: pre1))%nat; [|lia].
      apply Hfree; [apply list_elem_of_here|simpl; lia]. }
    assert (Hrest : rest = drop n (c0 :: pre1) ++ s').
    { rewrite <- Hdr. by rewrite drop_app_le. }
    rewrite Hrest.
    replace (pos + length (c0 :: pre1))%nat with (pos + n + length (drop n (c0 :: pre1)))%nat
      by (rewrite length_drop; lia).
    apply IH.
    + rewrite <- Hrest, <- Hdr, <- Hd, drop_drop. done.
    + rewrite <- Hrest. rewrite length_app in *. simpl in *. lia.
    + done.
    + intros j w Hin Hj. rewrite <- Hrest in Hin.
      replace (pos + n + length (drop n (c0 :: pre1)))%nat with (pos + length (c0 :: pre1))%nat
        in * by (rewrite length_drop; lia).
      apply Hfree; [by apply list_elem_of_further|done].
  - simpl. replace (pos + S (length pre1))%nat with (S pos + length pre1)%nat by lia.
    apply IH.
    + replace (S pos) with (pos + 1)%nat by lia. by rewrite <- drop_drop, Hd.
    + simpl in Hf. lia.
    + done.
    + intros j w Hin Hj. simpl in Hfree.
      replace (S pos + length pre1)%nat with (pos + S (length pre1))%nat in * by lia.
      by apply Hfree.
Qed.

Lemma finditer_exact text i u :
  (i, u) ∈ finditer text ↔
  declared_at text i u ∧
  ∀ j v, (j, v) ∈ finditer text → (j < i)%nat → (match_end text j v ≤ i)%nat.
Proof.
  split.
  - intros Hin. split; [by apply finditer_sound|].
    intros j v Hj Hlt.
    destruct (StronglySorted_elems _ _ (j, v) (i, u) (finditer_apart text) Hj Hin)
      as [[= -> ->]|[H|H]]; [lia|done|]. simpl in H.
    apply finditer_fuel_sound in Hj as (k & post & -> & Hk & Hm).
    apply finditer_fuel_sound in Hin as (k' & post' & -> & Hk' & Hm').
    pose proof (match_end_gt text k' u post' Hm'). simpl in *. lia.
  - intros [[Hi [post Hd]] Hfree]. unfold finditer in *.
    pose proof (finditer_fuel_exact (S (length text)) text 0 (take i text) (drop i text) u post)
      as Hx.
    rewrite take_drop, length_take in Hx.
    replace (0 + i `min` length text)%nat with i in Hx by lia.
    apply Hx; [done|lia|by apply match_at_spec|exact Hfree].
Qed.

(** The two properties determine the matches: a list of declarations sorted
    by offset that holds exactly the declarations not covered by an earlier
    element of its own is the list of matches. *)
Lemma finditer_unique text (l : list (nat * str)) :
  StronglySorted (λ p q, p.1 < q.1)%nat l →
  (∀ i u, (i, u) ∈ l ↔
          declared_at text i u ∧
          ∀ j v, (j, v) ∈ l → (j < i)%nat → (match_end text j v ≤ i)%nat) →
  l = finditer text.
Proof.
  intros Hsort Hl.
  assert (Hmem : ∀ n i u, (i < n)%nat → (i, u) ∈ l ↔ (i, u) ∈ finditer text).
  { induction n as [|n IH]; [lia|]. intros i u Hi.
    rewrite Hl, finditer_exact.
    split; intros [Hd Hfree]; (split; [done|]); intros j v Hj Hlt;
      apply Hfree; [|done| |done]; apply (IH j v); (lia || done). }
  assert (Hsame : ∀ p, p ∈ l ↔ p ∈ finditer text).
  { intros [i u]. apply (Hmem (S i)). lia. }
  assert (Hlt : ∀ l', StronglySorted (λ p q : nat * str, p.1 < q.1)%nat l' → NoDup l').
  { induction 1 as [|p l' _ IH Hp]; constructor; [|done].
    intros Hin. rewrite Forall_forall in Hp. specialize (Hp _ Hin). lia. }
  pose proof (proj2 (finditer_fuel_sorted (S (length text)) 0 text)) as Hsort'.
  fold (finditer text) in Hsort'.
  assert (Hperm : l ≡ₚ finditer text) by (apply NoDup_Permutation; auto).
  clear Hl Hmem Hsame. revert Hperm Hsort'. generalize (finditer text).
  induction Hsort as [|p l Hs IH Hp]; intros l2 Hperm H2.
  - by apply Permutation_nil_l in Hperm.
  - destruct H2 as [|q l2 Hs2 Hq]; [by apply Permutation_nil_r in Hperm|].
    assert (p = q) as <-.
    { assert (Hpin : p ∈ q :: l2) by (rewrite <- Hperm; apply list_elem_of_here).
      assert (Hqin : q ∈ p :: l) by (rewrite Hperm; apply list_elem_of_here).
      apply elem_of_cons in Hpin as [|Hpin]; [done|].
      apply elem_of_cons in Hqin as [|Hqin]; [done|].
      rewrite Forall_forall in Hp, Hq. specialize (Hp _ Hqin). specialize (Hq _ Hpin). lia. }
    f_equal. apply IH; [by apply Permutation_cons_inv in Hperm|done].
Qed.

(** C5 (as amended).  Endpoint discovery returns, without repetition and in
    the order of their first occurrences, the paths of the matches of
    [POST\s+(/\S+)].  The matches come from left to right without overlap,
    each starting at or after the end of the one before.  Each is [POST],
    whitespace and a maximal run of non-whitespace characters that begins
    with [/] and has at least two characters; such a declaration is matched
    if and only if its [POST] does not lie inside an earlier match, so a
    [POST] inside the path of an earlier match starts no match, and every
    declaration whose [POST] stands at the start of the text or after
    whitespace is matched.  No other list of declarations in increasing
    offsets has this property.  A text whose matches are [/a], [/b], [/a] in
    that order yields [["/a"; "/b"]]. *)
Theorem find_urls_correct (text : str) :
  NoDup (find_urls text) ∧
  find_urls text = first_occurrences (map snd (finditer text)) ∧
  (∀ u, u ∈ find_urls text ↔ ∃ i, (i, u) ∈ finditer text) ∧
  StronglySorted (λ p q, p.1 < q.1)%nat (finditer text) ∧
  StronglySorted (λ p q, match_end text p.1 p.2 ≤ q.1)%nat (finditer text) ∧
  (∀ i u, (i, u) ∈ finditer text → run_at text i u ∧ (2 ≤ length u)%nat) ∧
  (∀ i u, (i, u) ∈ finditer text ↔
          (run_at text i u ∧ (2 ≤ length u)%nat) ∧
          ∀ j v, (j, v) ∈ finditer text → (j < i)%nat → (match_end text j v ≤ i)%nat) ∧
  (∀ i u, run_at text i u → (2 ≤ length u)%nat →
          (∀ c, last (take i text) = Some c → isspace c = true) →
          (i, u) ∈ finditer text) ∧
  (∀ l, StronglySorted (λ p q, p.1 < q.1)%nat l →
        (∀ i u, (i, u) ∈ l ↔
                (run_at text i u ∧ (2 ≤ length u)%nat) ∧
                ∀ j v, (j, v) ∈ l → (j < i)%nat → (match_end text j v ≤ i)%nat) →
        l = finditer text) ∧
  (map snd (finditer text) = [lit "/a"; lit "/b"; lit "/a"] →
   find_urls text = [lit "/a"; lit "/b"]).
Proof.
  split; [rewrite find_urls_first_occurrences; apply NoDup_first_occurrences|].
  split; [apply find_urls_first_occurrences|].
  split; [apply find_urls_elem|].
  split; [apply finditer_fuel_sorted|].
  split; [apply finditer_apart|].
  split; [intros i u Hin; by apply declared_at_run, finditer_sound|].
  split; [intros i u; rewrite <- declared_at_run; apply finditer_exact|].
  split.
  { intros i u Hr Hl Hlast. apply finditer_complete; [|done]. by apply declared_at_run. }
  split.
  - intros l Hs Hl. apply finditer_unique; [done|].
    intros i u. rewrite declared_at_run. apply Hl.
  - intros Hm. rewrite find_urls_first_occurrences, Hm. reflexivity.
Qed.

Lemma find_urls_correct_witness :
  find_urls Ex.abab_text = [lit "/a"; lit "/b"] ∧
  (8%nat, lit "/b") ∈ finditer Ex.abab_text ∧
  (6%nat, lit "/a") ∉ finditer Ex.overlap_text.
Proof.
  destruct (find_urls_correct Ex.abab_text) as (_ & _ & _ & _ & _ & _ & _ & Hc & _ & Hex).
  destruct (find_urls_correct Ex.overlap_text) as (_ & _ & _ & _ & _ & _ & Hiff & _).
  split; [|split].
  - apply Hex. vm_compute. reflexivity.
  - apply Hc.
    + split; [vm_compute; lia|]. exists (lit " POST /a"), [32].
      repeat split; [done|by repeat constructor|by repeat constructor|].
      intros c post' [= <- <-]. reflexivity.
    + simpl. lia.
    + intros c. vm_compute. intros [= <-]. reflexivity.
  - intros Hin. apply Hiff in Hin as [_ Hfree].
    assert (Hle : (match_end Ex.overlap_text 0 (lit "/POST") ≤ 6)%nat).
    { apply Hfree; [vm_compute; apply list_elem_of_here|lia]. }
    vm_compute in Hle. lia.
Defined.

(** C5, as stated, fails: in [POST / x] the maximal run after [POST] and the
    blank is [/], which is not returned; in [POST /POST /a] the run [/a]
    follows a [POST] and a blank, and is not returned. *)
Lemma bare_slash_and_overlap_missed :
  (run_at Ex.bare_slash_text 0 (lit "/") ∧ find_urls Ex.bare_slash_text = []) ∧
  (run_at Ex.overlap_text 6 (lit "/a") ∧ find_urls Ex.overlap_text = [lit "/POST"]).
Proof.
  split; split; try (vm_compute; reflexivity).
  - split; [vm_compute; lia|]. exists (lit " x"), [32].
    repeat split; [done|by repeat constructor|by repeat constructor|].
    intros c post' [= <- <-]. reflexivity.
  - split; [vm_compute; lia|]. exists [], [32].
    repeat split; [done|by repeat constructor|by repeat constructor|].
    intros c post' [=].
Qed.

(** C10.  A path that endpoint discovery returns for a text occurs in that
    text, so the search for its first occurrence succeeds and [main] always
    extracts the blocks around that offset: the branch with the empty block
    list is not taken. *)
Theorem anchor_search_succeeds `{PyLib} (text u name : str) (rows : list row) (idx : Z) :
  u ∈ find_urls text →
  ∃ start, find_str u text = Some start ∧
    (start ≤ length text)%nat ∧ startswith u (drop start text) = true ∧
    url_step name text (rows, idx) u =
      ('(inp, out) ← pick_io (alloc (json_blocks_near text (Z.of_nat start)
                                       default_radius default_max_blocks));
       Ok (rows ++ [{| Index := idx; FileName := name; URL := u; Method := lit "POST";
                       Input := inp; ResponseCode := lit "200"; Output := out |}],
           (idx + 1)%Z)).
Proof.
  intros [i Hin%finditer_sound%declared_infix]%find_urls_elem.
  destruct Hin as (pre & post & ->).
  destruct (find_str_infix u pre post) as [start Hs].
  exists start. destruct (find_str_Some _ _ _ Hs) as (Hle & Hst & _).
  split; [done|]. split; [done|]. split; [done|].
  unfold url_step. by rewrite Hs.
Qed.

Lemma anchor_search_succeeds_witness :
  ∃ start, find_str (lit "/v1/pay") Ex.pay_text = Some start.
Proof.
  destruct (anchor_search_succeeds (H := RefLib.lib) Ex.pay_text (lit "/v1/pay") [] [] 1)
    as (start & Hs & _).
  - vm_compute. apply list_elem_of_here.
  - by exists start.
Defined.

(** ** Block extraction *)

Lemma scan_depth_bounds rest j d j' :
  scan_depth rest j d = Some j' → (j ≤ j' < j + length rest)%nat.
Proof.
  revert j d; induction rest as [|ch rest IH]; intros j d; simpl; [done|].
  destruct (ch =? lbrace).
  { intros Hs. apply IH in Hs. lia. }
  destruct (ch =? rbrace).
  - destruct (d - 1 =? 0)%Z; [intros [= <-]; lia|]. intros Hs. apply IH in Hs. lia.
  - intros Hs. apply IH in Hs. lia.
Qed.

Lemma blocks_loop_enough_fuel fuel fuel' span mb i out found :
  (length span - i < fuel)%nat → (length span - i < fuel')%nat →
  blocks_loop fuel span mb i out found = blocks_loop fuel' span mb i out found.
Proof.
  revert fuel' i out found; induction fuel as [|fuel IH]; intros fuel' i out found Hf Hf'; [lia|].
  destruct fuel' as [|fuel']; [lia|]. simpl.
  destruct (Z.of_nat (length out) <? mb)%Z; [|done].
  destruct (find_char lbrace span i) as [p|] eqn:Ep; [|done].
  apply find_char_Some in Ep as [Hp _].
  destruct (scan_depth (drop p span) p 0) as [j|] eqn:Ej; [|done].
  apply scan_depth_bounds in Ej. rewrite length_drop in Ej.
  apply IH; lia.
Qed.

Lemma blocks_loop_kept fuel span mb i out found :
  out = filter long found →
  (blocks_loop fuel span mb i out found).1
  = filter long (blocks_loop fuel span mb i out found).2.
Proof.
  revert i out found; induction fuel as [|fuel IH]; intros i out found Hinv; simpl; [done|].
  destruct (Z.of_nat (length out) <? mb)%Z; [|done].
  destruct (find_char lbrace span i) as [p|]; [|done].
  destruct (scan_depth (drop p span) p 0) as [j|]; [|done].
  apply IH. rewrite filter_app, <- Hinv.
  destruct (Nat.ltb_spec 50 (length (strip (substr span p (j + 1))))).
  - by rewrite filter_cons_True.
  - rewrite filter_cons_False by (unfold long; lia). by rewrite app_nil_r.
Qed.

Lemma json_blocks_near_kept text center radius mb :
  json_blocks_near text center radius mb
  = filter long (found_spans text center radius mb).
Proof. unfold json_blocks_near, found_spans, blocks_run. by apply blocks_loop_kept. Qed.

Lemma scan_depth_skip k rest j d :
  brace_free k → scan_depth (k ++ rest) j d = scan_depth rest (j + length k) d.
Proof.
  intros Hk. revert j; induction Hk as [|x k [Hl Hr] _ IH]; intros j; simpl.
  - by rewrite Nat.add_0_r.
  - destruct (N.eqb_spec x lbrace); [done|]. destruct (N.eqb_spec x rbrace); [done|].
    rewrite IH. f_equal. lia.
Qed.

Lemma nested_app k1 k2 k3 suf :
  nested k1 k2 k3 ++ suf = lbrace :: k1 ++ lbrace :: k2 ++ rbrace :: k3 ++ rbrace :: suf.
Proof. unfold nested. simpl. f_equal. rewrite <- !app_assoc. simpl. by rewrite <- !app_assoc. Qed.

Lemma nested_length k1 k2 k3 :
  length (nested k1 k2 k3) = (4 + length k1 + length k2 + length k3)%nat.
Proof. unfold nested. simpl. rewrite !length_app. simpl. rewrite !length_app. simpl. lia. Qed.

Lemma scan_depth_nested k1 k2 k3 suf p :
  brace_free k1 → brace_free k2 → brace_free k3 →
  scan_depth (nested k1 k2 k3 ++ suf) p 0 = Some (p + length (nested k1 k2 k3) - 1)%nat.
Proof.
  intros H1 H2 H3. rewrite nested_app, nested_length. cbn [scan_depth].
  change (lbrace =? lbrace) with true. cbv iota.
  rewrite scan_depth_skip by done.
  cbn [scan_depth]. change (lbrace =? lbrace) with true. cbv iota.
  rewrite scan_depth_skip by done.
  cbn [scan_depth]. change (rbrace =? lbrace) with false.
  change (rbrace =? rbrace) with true. cbv iota. simpl (_ =? 0)%Z. cbv iota.
  rewrite scan_depth_skip by done.
  cbn [scan_depth]. change (rbrace =? lbrace) with false.
  change (rbrace =? rbrace) with true. cbv iota. simpl (_ =? 0)%Z. cbv iota.
  f_equal. lia.
Qed.

Lemma window_full text center radius :
  (center - radius ≤ 0)%Z → (Z.of_nat (length text) ≤ center + radius)%Z →
  window text center radius = text.
Proof.
  intros H1 H2. unfold window, slice, clip_index.
  rewrite (Z.max_l 0 (center - radius)) by lia.
  rewrite (Z.min_l (Z.of_nat (length text)) (center + radius)) by lia.
  destruct (Z.ltb_spec 0 0); [lia|]. destruct (Z.ltb_spec (Z.of_nat (length text)) 0); [lia|].
  rewrite (Z.min_l 0) by lia. rewrite Z.min_id. rewrite Z.sub_0_r, Nat2Z.id. simpl.
  apply firstn_all.
Qed.

Lemma blocks_run_nested pre k1 k2 k3 suf center radius mb :
  let block := nested k1 k2 k3 in
  let text := pre ++ block ++ suf in
  brace_free pre → brace_free k1 → brace_free k2 → brace_free k3 → brace_free suf →
  (center - radius ≤ 0)%Z → (Z.of_nat (length text) ≤ center + radius)%Z →
  (0 < mb)%Z →
  blocks_run text center radius mb
  = ((if (50 <? length block)%nat then [block] else []), [block]).
Proof.
  intros block text Hpre H1 H2 H3 Hsuf Hc1 Hc2 Hmb.
  unfold blocks_run. rewrite window_full by done.
  rewrite (blocks_loop_enough_fuel _ (S (S (length text)))) by lia.
  assert (Hlen : (2 ≤ length block)%nat).
  { unfold block. rewrite nested_length. lia. }
  cbn [blocks_loop length]. destruct (Z.ltb_spec (Z.of_nat 0) mb) as [_|]; [|simpl in *; lia].
  assert (Hf : find_char lbrace text 0 = Some (length pre)).
  { unfold find_char. rewrite drop_0. unfold text, block, nested.
    cbn [app]. rewrite index_of_skip; [done|].
    eapply Forall_impl; [exact Hpre|]. by intros ? []. }
  rewrite Hf. cbv zeta.
  assert (Hd : drop (length pre) text = block ++ suf).
  { unfold text. by rewrite drop_app_length. }
  rewrite Hd. unfold block at 1. rewrite scan_depth_nested by done. fold block.
  assert (Hraw : strip (substr text (length pre) (length pre + length block - 1 + 1)) = block).
  { unfold substr. rewrite Hd.
    replace (length pre + length block - 1 + 1 - length pre)%nat with (length block) by lia.
    rewrite take_app_length. unfold block, nested. by apply strip_delimited. }
  rewrite Hraw. cbn [app].
  assert (Hnone : find_char lbrace text (length pre + length block - 1 + 1) = None).
  { unfold find_char.
    replace (length pre + length block - 1 + 1)%nat with (length (pre ++ block))
      by (rewrite length_app; lia).
    unfold text. rewrite app_assoc, drop_app_length, index_of_None; [done|].
    eapply Forall_impl; [exact Hsuf|]. by intros ? []. }
  rewrite Hnone. by destruct (_ <? mb)%Z.
Qed.

(** The loop stops by itself: fuel beyond the length of the span changes
    nothing. *)
Lemma json_blocks_near_fuel text center radius mb fuel :
  (length (window text center radius) < fuel)%nat →
  blocks_run text center radius mb
  = blocks_loop fuel (window text center radius) mb 0 [] [].
Proof. intros Hf. unfold blocks_run. apply blocks_loop_enough_fuel; lia. Qed.



(** C2 (as amended).  In a text [pre {k1{k2}k3} suf] with no other brace,
    seen whole by the window, the scan finds one span, the whole nested
    object: the inner braces do not end it early.  It is returned if it is
    longer than 50 characters, and dropped otherwise. *)
Theorem nested_block_extraction (pre k1 k2 k3 suf : str) (center radius max_blocks : Z) :
  let block := nested k1 k2 k3 in
  let text := pre ++ block ++ suf in
  brace_free pre → brace_free k1 → brace_free k2 → brace_free k3 → brace_free suf →
  (center - radius ≤ 0)%Z → (Z.of_nat (length text) ≤ center + radius)%Z →
  (0 < max_blocks)%Z →
  found_spans text center radius max_blocks = [block] ∧
  json_blocks_near text center radius max_blocks
  = (if (50 <? length block)%nat then [block] else []).
Proof.
  intros block text Hpre H1 H2 H3 Hsuf Hc1 Hc2 Hmb.
  pose proof (blocks_run_nested pre k1 k2 k3 suf center radius max_blocks
                Hpre H1 H2 H3 Hsuf Hc1 Hc2 Hmb) as Hrun.
  cbv zeta in Hrun. unfold found_spans, json_blocks_near.
  subst block text. by rewrite Hrun.
Qed.

Lemma nested_block_extraction_witness :
  json_blocks_near Ex.req_text 0 default_radius default_max_blocks = [Ex.req_block] ∧
  found_spans Ex.ab_text 0 default_radius default_max_blocks = [Ex.ab_block] ∧
  json_blocks_near Ex.ab_text 0 default_radius default_max_blocks = [].
Proof.
  assert (Hbf : ∀ s, bool_decide (brace_free s) = true → brace_free s).
  { intros s Hs. by apply bool_decide_eq_true in Hs. }
  assert (Hreq := nested_block_extraction (lit "prefix ") Ex.req_k1 Ex.req_k2 [] (lit " suffix")
              0 default_radius default_max_blocks).
  assert (Hab := nested_block_extraction (lit "prefix ") Ex.ab_k1 Ex.ab_k2 [] (lit " suffix")
              0 default_radius default_max_blocks).
  cbv zeta in Hreq, Hab.
  destruct Hreq as [_ Hreq];
    [apply Hbf; vm_compute; reflexivity..|vm_compute; done|vm_compute; done|done|].
  destruct Hab as [Hf Hab];
    [apply Hbf; vm_compute; reflexivity..|vm_compute; done|vm_compute; done|done|].
  split; [exact Hreq|]. split; [exact Hf|exact Hab].
Defined.

(** C2, as stated, fails: the span [{"a":{"b":1}}] is found whole, but it has
    13 characters, so nothing is returned. *)
Lemma ab_block_not_returned :
  found_spans Ex.ab_text 0 default_radius default_max_blocks = [Ex.ab_block] ∧
  length Ex.ab_block = 13%nat ∧
  json_blocks_near Ex.ab_text 0 default_radius default_max_blocks = [] ∧
  json_blocks_near Ex.ab_text 0 default_radius default_max_blocks ≠ [Ex.ab_block].
Proof. vm_compute. repeat split; done. Qed.

(** ** Role classification *)

Lemma max_by_len_elem b0 bs : max_by_len b0 bs ∈ b0 :: bs.
Proof.
  unfold max_by_len. revert b0; induction bs as [|b bs IH]; intros b0; simpl.
  - apply list_elem_of_here.
  - specialize (IH (if (length (chars b0) <? length (chars b))%nat then b else b0)).
    apply elem_of_cons in IH as [->|IH].
    + destruct (length (chars b0) <? length (chars b))%nat;
        [apply list_elem_of_further, list_elem_of_here|apply list_elem_of_here].
    + by do 2 apply list_elem_of_further.
Qed.

Lemma find_Some_elem {A} (p : A → bool) l x : List.find p l = Some x → x ∈ l ∧ p x = true.
Proof. intros Hf. apply find_some in Hf as [Hin Hp]. by rewrite list_elem_of_In. Qed.

Section ClassifierProps.
Context `{PyLib}.

Lemma is_req_not_resp b : is_req b = true → is_resp b = false.
Proof. unfold is_req. intros [_ Hn]%andb_true_iff. by apply negb_true_iff. Qed.

Lemma next_or_empty_cases p blocks :
  (next_or_empty p blocks = empty_str ∧ List.find p blocks = None) ∨
  (next_or_empty p blocks ∈ blocks ∧ p (next_or_empty p blocks) = true).
Proof.
  unfold next_or_empty. destruct (List.find p blocks) eqn:E; simpl; [right|left; done].
  by apply find_Some_elem.
Qed.

(** A non-empty selection is one of the candidates. *)
Lemma select_io_elem blocks inp out :
  select_io blocks = (inp, out) →
  (chars inp ≠ [] → inp ∈ blocks) ∧ (chars out ≠ [] → out ∈ blocks).
Proof.
  unfold select_io. intros [= <- <-]. split.
  - destruct blocks as [|b0 bs].
    + simpl. done.
    + destruct (truthy (chars (next_or_empty is_req (b0 :: bs)))) eqn:E; simpl.
      * intros _. destruct (next_or_empty_cases is_req (b0 :: bs)) as [[He _]|[Hin _]]; [|done].
        rewrite He in E. done.
      * intros _. apply max_by_len_elem.
  - destruct (truthy (chars (next_or_empty is_resp blocks))) eqn:E; simpl.
    + intros _. destruct (next_or_empty_cases is_resp blocks) as [[He _]|[Hin _]]; [|done].
      rewrite He in E. done.
    + match goal with |- context [List.filter ?f blocks] => set (rest := List.filter f blocks) end.
      assert (Hsub : ∀ x, x ∈ rest → x ∈ blocks).
      { intros x. unfold rest. rewrite !list_elem_of_In, filter_In. tauto. }
      destruct rest as [|r0 rs]; [done|].
      intros _. apply Hsub, max_by_len_elem.
Qed.

(** C4.  A block whose lower-cased text contains a response keyword and a
    request keyword is response-like and not request-like, and the scan for
    the first request-like block never selects it. *)
Theorem response_precedence (b : strobj) :
  (∃ k, k ∈ resp_keys ∧ contains k (lower (chars b)) = true) →
  (∃ k, k ∈ req_keys ∧ contains k (lower (chars b)) = true) →
  is_resp b = true ∧ is_req b = false ∧
  ∀ blocks, List.find is_req blocks ≠ Some b.
Proof.
  intros (k & Hk & Hc) _.
  assert (Hr : is_resp b = true).
  { unfold is_resp. apply existsb_exists. exists k. by rewrite <- list_elem_of_In. }
  assert (Hq : is_req b = false).
  { unfold is_req. rewrite Hr. apply andb_false_r. }
  repeat split; [done..|].
  intros blocks Hf. apply find_Some_elem in Hf as [_ Hf]. congruence.
Qed.

(** X19.  Where the input comes from the request rule, or the output from
    the fallback, two non-empty selections are different candidates of the
    list. *)
Lemma select_io_distinct (blocks : list strobj) (inp out : strobj) :
  select_io blocks = (inp, out) →
  input_by_rule blocks = true ∨ output_by_rule blocks = false →
  chars inp ≠ [] → chars out ≠ [] →
  inp ∈ blocks ∧ out ∈ blocks ∧ inp ≠ out.
Proof.
  intros Hsel Hcase Hi Ho.
  destruct (select_io_elem _ _ _ Hsel) as [Hin Hout].
  split; [auto|]. split; [auto|].
  revert Hsel. unfold select_io.
  fold (input_by_rule blocks). fold (output_by_rule blocks).
  destruct (output_by_rule blocks) eqn:Eo; simpl.
  - destruct Hcase as [Ei|?]; [|done]. rewrite Ei. simpl.
    intros Hsel.
    assert (inp = next_or_empty is_req blocks) as Hinp by (destruct blocks; congruence).
    assert (out = next_or_empty is_resp blocks) as Hout' by congruence.
    destruct (next_or_empty_cases is_req blocks) as [[He _]|[_ Hq]].
    { unfold input_by_rule in Ei. rewrite He in Ei. done. }
    destruct (next_or_empty_cases is_resp blocks) as [[He _]|[_ Hr]].
    { unfold output_by_rule in Eo. rewrite He in Eo. done. }
    intros ->. rewrite <- Hinp in Hq. rewrite <- Hout' in Hr.
    apply is_req_not_resp in Hq. congruence.
  - intros [= Hinp Hout'].
    match type of Hout' with context [List.filter ?f blocks] =>
      set (rest := List.filter f blocks) in * end.
    destruct rest as [|r0 rs] eqn:Er.
    { subst out. done. }
    assert (out ∈ rest) as Hmem by (rewrite Er, <- Hout'; apply max_by_len_elem).
    unfold rest in Hmem. rewrite list_elem_of_In, filter_In in Hmem.
    destruct Hmem as [_ Hne]. rewrite Hinp in Hne.
    intros ->. unfold same_obj in Hne. rewrite Nat.eqb_refl in Hne. done.
Qed.

(** *** Normalisation *)

Lemma norm_total s : ∃ t, norm s = Ok t.
Proof. unfold norm, try_except. destruct (norm_try s); eauto. Qed.

(** C9.  [norm] never raises; when parsing its argument raises, and also
    when serialising the parsed value does, it returns the argument
    unchanged. *)
Theorem norm_never_raises (s : str) :
  (∃ t, norm s = Ok t) ∧
  (∀ e, json_loads s = Raise e → norm s = Ok s) ∧
  (∀ v e, json_loads s = Ok v → json_dumps v = Raise e → norm s = Ok s).
Proof.
  split; [apply norm_total|]. unfold norm, norm_try. split.
  - intros e ->. done.
  - intros v e -> Hd. simpl. by rewrite Hd.
Qed.

(** [norm] returns its argument, or the text serialised from the parsed
    value. *)
Lemma norm_cases (s : str) :
  norm s = Ok s ∨
  ∃ v t, json_loads s = Ok v ∧ json_dumps v = Ok t ∧ norm s = Ok t.
Proof.
  unfold norm, norm_try. destruct (json_loads s) as [v|e]; simpl; [|by left].
  destruct (json_dumps v) as [t|e] eqn:Ed; simpl; [|by left].
  right. by exists v, t.
Qed.

(** The serialised text of a value that parses back to it is left alone. *)
Lemma norm_serialised (v : json_value) (t : str) :
  json_dumps v = Ok t → json_loads t = Ok v → norm t = Ok t.
Proof. intros Hd Hl. unfold norm, norm_try. rewrite Hl. simpl. by rewrite Hd. Qed.

(** Relative to the library, [norm] is idempotent on an input that it
    round-trips: if the text serialised from the parsed value parses back to
    that value, normalising the result of [norm] gives the same text again.
    Whether [json.loads] reads back all that [json.dumps] prints is a
    property of the library, which this development does not settle. *)
Theorem norm_idempotent (s : str) :
  (∀ v t, json_loads s = Ok v → json_dumps v = Ok t → json_loads t = Ok v) →
  (t ← norm s; norm t) = norm s.
Proof.
  intros Hrt. destruct (norm_cases s) as [Hs|(v & t & Hl & Hd & Hs)].
  - rewrite Hs. simpl. exact Hs.
  - rewrite Hs. simpl. apply (norm_serialised v t Hd). by apply Hrt.
Qed.

Lemma pick_io_total blocks : ∃ a b, pick_io blocks = Ok (a, b).
Proof.
  unfold pick_io. destruct (select_io blocks) as [inp out].
  destruct (norm_total (chars inp)) as [a ->], (norm_total (chars out)) as [b ->].
  simpl. eauto.
Qed.

End ClassifierProps.

(** ** The reference library

    The reference parser reads back what the reference serialiser prints for
    any value it built itself, so on this instance, a fragment of the [json]
    module, [norm] is idempotent on every input. *)
Module RefLibFacts.
Import RefLib.

Lemma skip_ws_indent level s : skip_ws (newline_indent level ++ s) = skip_ws s.
Proof.
  unfold newline_indent. simpl. induction level as [|n IH]; simpl; [done|]. exact IH.
Qed.

Lemma skip_ws_stop c s : json_ws c = false → skip_ws (c :: s) = c :: s.
Proof. intros Hc. simpl. by rewrite Hc. Qed.

Lemma scan_string_escape s acc rest :
  Forall plain_char s →
  scan_string (concat (map escape_char s) ++ dquote :: rest) acc = Some (rev acc ++ s, rest).
Proof.
  intros Hs. revert acc; induction Hs as [|c s Hc _ IH]; intros acc.
  - simpl. by rewrite app_nil_r.
  - cbn [map concat]. rewrite <- app_assoc.
    replace (rev acc ++ c :: s) with (rev (c :: acc) ++ s) by (simpl; by rewrite <- app_assoc).
    rewrite <- IH. unfold escape_char.
    destruct (N.eqb_spec c dquote) as [->|H1]; [reflexivity|].
    destruct (N.eqb_spec c (ord "\")) as [->|H2]; [reflexivity|].
    destruct (N.eqb_spec c 10) as [->|H3]; [reflexivity|].
    destruct (N.eqb_spec c 13) as [->|H4]; [reflexivity|].
    destruct (N.eqb_spec c 9) as [->|H5]; [reflexivity|].
    destruct (N.eqb_spec c 8) as [->|H6]; [reflexivity|].
    destruct (N.eqb_spec c 12) as [->|H7]; [reflexivity|].
    destruct (N.ltb_spec c 32) as [H8|H8].
    { unfold plain_char in Hc. lia. }
    cbn [app scan_string].
    destruct (N.eqb_spec c dquote); [done|]. destruct (N.eqb_spec c (ord "\")); [done|].
    destruct (N.ltb_spec c 32); [lia|]. done.
Qed.

Lemma scan_string_dump s rest :
  Forall plain_char s →
  ∃ r, dump_string s ++ rest = dquote :: r ∧ scan_string r [] = Some (s, rest).
Proof.
  intros Hs. exists (concat (map escape_char s) ++ dquote :: rest). split.
  - unfold dump_string, quoted. simpl. by rewrite <- app_assoc.
  - by rewrite scan_string_escape.
Qed.

Lemma unescape_plain e x : unescape e = Some x → plain_char x.
Proof.
  unfold unescape, plain_char.
  repeat (destruct (_ =? _); [intros [= <-]; vm_compute; intuition congruence|]). done.
Qed.

Lemma scan_string_plain s acc t r :
  scan_string s acc = Some (t, r) → Forall plain_char acc → Forall plain_char t.
Proof.
  revert acc. induction s as [s IH] using (induction_ltof1 _ (@length _)). unfold ltof in IH.
  intros acc. destruct s as [|c s]; cbn [scan_string]; [done|].
  destruct (N.eqb_spec c dquote).
  { intros [= <- <-] Hacc. by apply Forall_rev. }
  destruct (N.eqb_spec c (ord "\")).
  { destruct s as [|e' s]; [by intros [=]|]. destruct (unescape e') as [x|] eqn:Ex; [|by intros [=]].
    intros Hs Hacc. eapply (IH s); [simpl; lia|exact Hs|].
    constructor; [by eapply unescape_plain|done]. }
  destruct (N.ltb_spec c 32); [done|].
  intros Hs Hacc. eapply (IH s); [simpl; lia|exact Hs|].
  constructor; [left; done|done].
Qed.

Lemma digits_value_snoc ds d a :
  digits_value (ds ++ [d]) a = 10 * digits_value ds a + (d - 48).
Proof. revert a; induction ds as [|x ds IH]; intros a; simpl; [done|]. by rewrite IH. Qed.

Lemma log2_div10 n : n / 10 ≠ 0 → N.log2 (n / 10) < N.log2 n.
Proof.
  intros Hq. assert (10 * (n / 10) ≤ n) as Hmul by apply N.Div0.mul_div_le.
  set (q := n / 10) in *.
  assert (0 < q) as Hpos by lia.
  destruct (N.log2_spec _ Hpos) as [Hlo _].
  assert (2 ^ (N.log2 q + 1) ≤ n) as Hp.
  { rewrite N.pow_add_r, N.pow_1_r. lia. }
  apply N.log2_le_pow2 in Hp; lia.
Qed.

Lemma decimal_fuel_spec fuel n acc :
  (N.to_nat (N.log2 n) < fuel)%nat →
  ∃ ds, decimal_fuel fuel n acc = ds ++ acc ∧
    Forall (λ d, is_digit d = true) ds ∧
    (∃ d ds', ds = d :: ds' ∧ (ds' ≠ [] → d ≠ 48)) ∧
    ∀ a, digits_value ds a = a * 10 ^ N.of_nat (length ds) + n.
Proof.
  revert n acc; induction fuel as [|fuel IH]; intros n acc Hf; [lia|].
  cbn [decimal_fuel].
  assert (Hm : n mod 10 < 10) by (by apply N.mod_lt).
  assert (Hdm : n = 10 * (n / 10) + n mod 10) by (by apply N.div_mod).
  pose proof (log2_div10 n) as Hlog.
  set (q := n / 10) in *. set (m := n mod 10) in *.
  assert (Hd : is_digit (48 + m) = true).
  { unfold is_digit. apply andb_true_iff. split; apply N.leb_le; lia. }
  destruct (N.eqb_spec q 0) as [Hq|Hq].
  - exists [48 + m]. split; [done|]. split; [by repeat constructor|].
    split; [by exists (48 + m), []|].
    intros a. cbn [digits_value length].
    change (N.of_nat 1) with 1. rewrite N.pow_1_r. lia.
  - destruct (IH q ((48 + m) :: acc)) as (ds & -> & Hds & (d & ds' & -> & Hz) & Hv).
    { specialize (Hlog Hq). lia. }
    exists ((d :: ds') ++ [48 + m]). split; [by rewrite <- app_assoc|].
    split; [apply Forall_app; split; [done|by repeat constructor]|].
    split.
    + exists d, (ds' ++ [48 + m]). split; [done|]. intros _.
      destruct ds' as [|d' ds'']; [|by apply Hz].
      intros ->. specialize (Hv 0). cbn in Hv. lia.
    + intros a. rewrite digits_value_snoc, Hv, length_app. cbn [length].
      rewrite Nat2N.inj_add. change (N.of_nat 1) with 1. rewrite N.pow_add_r, N.pow_1_r.
      lia.
Qed.

Lemma decimal_N_spec n :
  ∃ d ds, decimal_fuel (S (N.to_nat (N.log2 n))) n [] = d :: ds ∧
    Forall (λ d, is_digit d = true) (d :: ds) ∧ (ds ≠ [] → d ≠ 48) ∧
    digits_value (d :: ds) 0 = n.
Proof.
  destruct (decimal_fuel_spec (S (N.to_nat (N.log2 n))) n []) as (ds & -> & Hds & (d & ds' & -> & Hz) & Hv);
    [lia|].
  exists d, ds'. rewrite app_nil_r. repeat split; [done..|]. rewrite Hv. lia.
Qed.

Lemma delimited_not_digit rest : delimited rest → ends_run is_digit rest.
Proof. intros Hd c post' ->. simpl in Hd. by destruct Hd as [-> | ->]. Qed.

Lemma scan_int_decimal z rest :
  delimited rest → scan_int (decimal z ++ rest) = Some (z, rest).
Proof.
  intros Hrest. unfold decimal.
  destruct (decimal_N_spec (Z.abs_N z)) as (d & ds & -> & Hds & Hz & Hv).
  assert (Hspan : span_of is_digit ((d :: ds) ++ rest) = (d :: ds, rest)).
  { apply span_of_app; [done|by apply delimited_not_digit]. }
  assert (Hd : (d =? ord "-") = false).
  { apply N.eqb_neq. intros ->. by inversion Hds. }
  assert (Hwf : match d :: ds with [] => false | [_] => true | d :: _ => negb (d =? 48) end = true).
  { destruct ds; [done|]. apply negb_true_iff, N.eqb_neq. by apply Hz. }
  assert (Hfo : match rest with
                | c :: _ => (c =? ord ".") || (c =? ord "e") || (c =? ord "E")
                | [] => false end = false).
  { destruct rest as [|c rest]; [done|]. simpl in Hrest. by destruct Hrest as [-> | ->]. }
  change ((d :: ds) ++ rest) with (d :: ds ++ rest) in Hspan.
  unfold scan_int. destruct (Z.ltb_spec z 0) as [Hneg|Hpos].
  - cbn [app]. change (ord "-" =? ord "-") with true. cbv iota.
    rewrite Hspan, Hwf, Hfo, Hv. cbn [andb negb]. f_equal. f_equal. lia.
  - cbn [app]. rewrite Hd.
    rewrite Hspan, Hwf, Hfo, Hv. cbn [andb negb]. f_equal. f_equal. lia.
Qed.

Lemma decimal_head z : ∃ c r, decimal z = c :: r ∧ (c = ord "-" ∨ is_digit c = true).
Proof.
  unfold decimal. destruct (decimal_N_spec (Z.abs_N z)) as (d & ds & -> & Hds & _).
  destruct (z <? 0)%Z; [by eexists _, _; split; [|left]|].
  exists d, ds. split; [done|]. right. by inversion Hds.
Qed.

Lemma digit_range c : is_digit c = true → 48 ≤ c ≤ 57.
Proof. unfold is_digit. intros [?%N.leb_le ?%N.leb_le]%andb_true_iff. lia. Qed.

Lemma dump_block_head level c o close items :
  ∃ r, dump_block level (c :: o) close items = c :: r.
Proof. unfold dump_block. destruct items; simpl; eauto. Qed.

Lemma dump_head level v : ∃ c r, dump level v = c :: r ∧ value_head c.
Proof.
  destruct v as [|[]|z|s|l|l]; cbn [dump].
  - by eexists _, _.
  - by eexists _, _.
  - by eexists _, _.
  - destruct (decimal_head z) as (c & r & -> & Hc). exists c, r. split; [done|].
    destruct Hc as [->|Hc%digit_range]; [done|].
    unfold value_head, json_ws. repeat split.
    + repeat (apply orb_false_iff; split); apply N.eqb_neq; lia.
    + change (ord "]") with 93. lia.
    + change (ord "}") with 125. lia.
  - by eexists _, _.
  - destruct (dump_block_head level (ord "[") [] (lit "]") (map (dump (S level)) l)) as [r Hr].
    change (lit "[") with [ord "["]. rewrite Hr. by eexists _, _.
  - destruct (dump_block_head level (ord "{") [] (lit "}")
                (map (λ '(k, x), dump_string k ++ lit ": " ++ dump (S level) x) l)) as [r Hr].
    change (lit "{") with [ord "{"]. rewrite Hr. by eexists _, _.
Qed.

Lemma skip_ws_value level v s : skip_ws (dump level v ++ s) = dump level v ++ s.
Proof.
  destruct (dump_head level v) as (c & r & -> & Hc & _). by apply skip_ws_stop.
Qed.

Lemma parse_value_int fuel c r :
  c = ord "-" ∨ is_digit c = true →
  parse_value (S fuel) (c :: r) = ('(z, r') ← scan_int (c :: r); Some (JInt z, r')).
Proof.
  intros Hc. cbn [parse_value].
  assert (Hr : c = 45 ∨ 48 ≤ c ≤ 57).
  { destruct Hc as [->|?%digit_range]; [by left|by right]. }
  destruct (N.eqb_spec c dquote) as [->|_]; [change dquote with 34 in Hr; lia|].
  destruct (N.eqb_spec c (ord "{")) as [->|_]; [change (ord "{") with 123 in Hr; lia|].
  destruct (N.eqb_spec c (ord "[")) as [->|_]; [change (ord "[") with 91 in Hr; lia|].
  assert (Hn : ∀ k0 k, startswith (k0 :: k) (c :: r) = false ∨ k0 = c).
  { intros k0 k. cbn [startswith]. destruct (N.eqb_spec k0 c); [by right|by left]. }
  destruct (Hn 110 (lit "ull")) as [Hx|Hx]; [|lia].
  change (lit "null") with (110 :: lit "ull"). rewrite Hx.
  destruct (Hn 116 (lit "rue")) as [Hy|Hy]; [|lia].
  change (lit "true") with (116 :: lit "rue"). rewrite Hy.
  destruct (Hn 102 (lit "alse")) as [Hz|Hz]; [|lia].
  change (lit "false") with (102 :: lit "alse"). rewrite Hz. done.
Qed.

Lemma obj_set_fresh k v acc : k ∉ map fst acc → obj_set k v acc = acc ++ [(k, v)].
Proof.
  induction acc as [|[k' v'] acc IH]; simpl; [done|].
  intros Hk. rewrite not_elem_of_cons in Hk. destruct Hk as [Hne Hk].
  destruct (decide (k = k')); [done|]. by rewrite IH.
Qed.

Lemma join_cons2 sep a b l : join sep (a :: b :: l) = a ++ sep ++ join sep (b :: l).
Proof. done. Qed.

Lemma skip_ws_close level c rest :
  json_ws c = false → skip_ws (newline_indent level ++ c :: rest) = c :: rest.
Proof. intros Hc. rewrite skip_ws_indent. by apply skip_ws_stop. Qed.

Lemma list_sum_cons a l : list_sum (a :: l) = (a + list_sum l)%nat.
Proof. done. Qed.

Lemma elems_roundtrip n level rest :
  (∀ f, (f < n)%nat → roundtrips f) →
  ∀ l acc f, (f ≤ n)%nat → l ≠ [] → Forall wf l →
    (list_sum (map (λ x, S (size x)) l) ≤ f)%nat →
    parse_elems f (join (lit "," ++ newline_indent (S level)) (map (dump (S level)) l)
                   ++ newline_indent level ++ lit "]" ++ rest) acc
    = Some (JArr (rev acc ++ l), rest).
Proof.
  intros IH l. induction l as [|x l IHl]; intros acc f Hf Hne Hwf Hsz; [done|].
  apply Forall_cons in Hwf as [Hx Hl]. cbn [map] in Hsz. rewrite list_sum_cons in Hsz.
  destruct f as [|f]; [lia|]. cbn [parse_elems].
  destruct l as [|y l].
  - cbn [map join].
    assert (Hp : parse_value f (dump (S level) x ++ newline_indent level ++ lit "]" ++ rest)
                 = Some (x, newline_indent level ++ lit "]" ++ rest)).
    { apply IH; [lia|lia|done|]. unfold newline_indent. simpl. by right. }
    rewrite Hp. cbn [mbind option_bind].
    change (lit "]" ++ rest) with (ord "]" :: rest).
    rewrite skip_ws_close by done.
    change (ord "]" =? ord "]") with true. cbv iota. done.
  - cbn [map]. rewrite join_cons2, <- !app_assoc.
    set (tail := join _ _ ++ _).
    assert (Hp : parse_value f (dump (S level) x ++ lit "," ++ newline_indent (S level) ++ tail)
                 = Some (x, lit "," ++ newline_indent (S level) ++ tail)).
    { apply IH; [lia|lia|done|]. simpl. by left. }
    rewrite Hp. cbn [mbind option_bind].
    change (lit "," ++ ?s) with (ord "," :: s).
    rewrite skip_ws_stop by done.
    change (ord "," =? ord "]") with false. change (ord "," =? ord ",") with true. cbv iota.
    rewrite skip_ws_indent. unfold tail.
    change (dump (S level) y :: map (dump (S level)) l) with (map (dump (S level)) (y :: l)).
    assert (Hhd : ∀ s, skip_ws (join (lit "," ++ newline_indent (S level))
                                  (map (dump (S level)) (y :: l)) ++ s)
                       = join (lit "," ++ newline_indent (S level))
                           (map (dump (S level)) (y :: l)) ++ s).
    { intros s. destruct l; cbn [map join]; [apply skip_ws_value|].
      rewrite <- app_assoc. apply skip_ws_value. }
    rewrite Hhd. rewrite IHl; [|lia|done|done|lia].
    simpl. by rewrite <- app_assoc.
Qed.

Lemma skip_ws_member level kv s :
  skip_ws (member_text level kv ++ s) = member_text level kv ++ s.
Proof. destruct kv as [k x]. unfold member_text, dump_string, quoted. by apply skip_ws_stop. Qed.

Lemma members_roundtrip n level rest :
  (∀ f, (f < n)%nat → roundtrips f) →
  ∀ l acc f, (f ≤ n)%nat → l ≠ [] →
    NoDup (map fst (acc ++ l)) →
    Forall (λ kv, Forall plain_char kv.1 ∧ wf kv.2) l →
    (list_sum (map (λ '(_, x), S (size x)) l) ≤ f)%nat →
    parse_members f (join (lit "," ++ newline_indent (S level)) (map (member_text level) l)
                     ++ newline_indent level ++ lit "}" ++ rest) acc
    = Some (JObj (acc ++ l), rest).
Proof.
  intros IH l. induction l as [|[k x] l IHl]; intros acc f Hf Hne Hnd Hwf Hsz; [done|].
  apply Forall_cons in Hwf as [[Hk Hx] Hl]. cbn [map] in Hsz. rewrite list_sum_cons in Hsz.
  simpl in Hk, Hx.
  destruct f as [|f]; [lia|].
  assert (Hfresh : k ∉ map fst acc).
  { rewrite map_app in Hnd. apply NoDup_app in Hnd as (_ & Hdis & _).
    intros Hin. apply (Hdis _ Hin). simpl. apply list_elem_of_here. }
  assert (Hset : obj_set k x acc = acc ++ [(k, x)]) by (by apply obj_set_fresh).
  assert (Hstep : ∀ tail, delimited tail →
    ∃ r, member_text level (k, x) ++ tail = dquote :: r ∧
         scan_string r [] = Some (k, lit ": " ++ dump (S level) x ++ tail) ∧
         parse_value f (skip_ws (lit " " ++ dump (S level) x ++ tail)) = Some (x, tail)).
  { intros tail Htail. unfold member_text. rewrite <- !app_assoc.
    destruct (scan_string_dump k (lit ": " ++ dump (S level) x ++ tail) Hk) as (r & -> & Hr).
    exists r. split; [done|]. split; [done|].
    change (lit " " ++ ?s) with (32 :: s). cbn [skip_ws]. change (json_ws 32) with true.
    cbv iota. rewrite skip_ws_value. apply IH; [lia|lia|done|done]. }
  destruct l as [|kv l].
  - cbn [map join].
    destruct (Hstep (newline_indent level ++ lit "}" ++ rest)) as (r & -> & Hr & Hp).
    { unfold newline_indent. simpl. by right. }
    cbn [parse_members]. change (dquote =? dquote) with true. cbv iota.
    rewrite Hr. cbn [mbind option_bind].
    change (lit ": " ++ ?s) with (ord ":" :: lit " " ++ s).
    rewrite skip_ws_stop by done. change (ord ":" =? ord ":") with true. cbv iota.
    rewrite Hp. cbn [mbind option_bind].
    change (lit "}" ++ rest) with (ord "}" :: rest).
    rewrite skip_ws_close by done.
    change (ord "}" =? ord "}") with true. cbv iota. by rewrite Hset.
  - cbn [map]. rewrite join_cons2, <- !app_assoc.
    set (tail := join _ _ ++ _).
    destruct (Hstep (lit "," ++ newline_indent (S level) ++ tail)) as (r & -> & Hr & Hp).
    { simpl. by left. }
    cbn [parse_members]. change (dquote =? dquote) with true. cbv iota.
    rewrite Hr. cbn [mbind option_bind].
    change (lit ": " ++ ?s) with (ord ":" :: lit " " ++ s).
    rewrite skip_ws_stop by done. change (ord ":" =? ord ":") with true. cbv iota.
    rewrite Hp. cbn [mbind option_bind].
    change (lit "," ++ ?s) with (ord "," :: s).
    rewrite skip_ws_stop by done.
    change (ord "," =? ord "}") with false. change (ord "," =? ord ",") with true. cbv iota.
    rewrite skip_ws_indent. unfold tail.
    change (member_text level kv :: map (member_text level) l)
      with (map (member_text level) (kv :: l)).
    assert (Hhd : ∀ s, skip_ws (join (lit "," ++ newline_indent (S level))
                                  (map (member_text level) (kv :: l)) ++ s)
                       = join (lit "," ++ newline_indent (S level))
                           (map (member_text level) (kv :: l)) ++ s).
    { intros s. destruct l; cbn [map join]; [apply skip_ws_member|].
      rewrite <- app_assoc. apply skip_ws_member. }
    rewrite Hhd, Hset. rewrite IHl; [|lia|done| |done|lia].
    + by rewrite <- app_assoc.
    + by rewrite <- app_assoc.
Qed.

Lemma dump_obj_members level l :
  map (λ '(k, x), dump_string k ++ lit ": " ++ dump (S level) x) l
  = map (member_text level) l.
Proof. apply map_ext. by intros [k x]. Qed.

Lemma roundtrips_all fuel : roundtrips fuel.
Proof.
  induction fuel as [fuel IH] using lt_wf_ind.
  intros v level rest Hsz Hwf Hrest.
  destruct fuel as [|f]; [destruct v; simpl in Hsz; lia|].
  destruct Hwf as [|b|z|s Hs|l Hl|l Hnd Hl].
  - reflexivity.
  - destruct b; reflexivity.
  - cbn [dump]. destruct (decimal_head z) as (c & r & Hd & Hc).
    pose proof (scan_int_decimal z rest Hrest) as Hscan. rewrite Hd in Hscan |- *.
    cbn [app] in *. rewrite parse_value_int by done. by rewrite Hscan.
  - cbn [dump]. destruct (scan_string_dump s rest Hs) as (r & -> & Hr).
    cbn [parse_value]. change (dquote =? dquote) with true. cbv iota. by rewrite Hr.
  - cbn [dump]. destruct l as [|x l].
    + reflexivity.
    + unfold dump_block. cbn [map]. rewrite <- !app_assoc.
      change (lit "[" ++ ?s) with (ord "[" :: s).
      cbn [parse_value]. change (ord "[" =? dquote) with false.
      change (ord "[" =? ord "{") with false. change (ord "[" =? ord "[") with true. cbv iota.
      rewrite skip_ws_indent.
      change (dump (S level) x :: map (dump (S level)) l) with (map (dump (S level)) (x :: l)).
      set (body := join _ _ ++ _).
      assert (Hb : parse_elems f body [] = Some (JArr (x :: l), rest)).
      { unfold body. apply (elems_roundtrip (S f)); [intros; apply IH; lia|lia|done|done|].
        simpl in Hsz. cbn [map]. rewrite list_sum_cons. lia. }
      assert (Hhd : ∃ d r, skip_ws body = d :: r ∧ body = d :: r ∧ d ≠ ord "]").
      { unfold body. destruct (dump_head (S level) x) as (d & r & Hd & Hv & Hn & _).
        destruct l; cbn [map join]; rewrite Hd; cbn [app]; rewrite skip_ws_stop by done;
          by eexists _, _. }
      destruct Hhd as (d & r & -> & Hbd & Hd). rewrite <- Hbd.
      destruct (N.eqb_spec d (ord "]")); [done|]. exact Hb.
  - cbn [dump]. rewrite dump_obj_members. destruct l as [|kv l].
    + reflexivity.
    + unfold dump_block. cbn [map]. rewrite <- !app_assoc.
      change (lit "{" ++ ?s) with (ord "{" :: s).
      cbn [parse_value]. change (ord "{" =? dquote) with false.
      change (ord "{" =? ord "{") with true. cbv iota.
      rewrite skip_ws_indent.
      change (member_text level kv :: map (member_text level) l)
        with (map (member_text level) (kv :: l)).
      set (body := join _ _ ++ _).
      assert (Hb : parse_members f body [] = Some (JObj (kv :: l), rest)).
      { unfold body. apply (members_roundtrip (S f)); [intros; apply IH; lia|lia|done|done|done|].
        simpl in Hsz. destruct kv. cbn [map]. rewrite list_sum_cons. lia. }
      assert (Hhd : ∃ r, skip_ws body = dquote :: r ∧ body = dquote :: r).
      { assert (∃ r0, member_text level kv = dquote :: r0) as [r0 Hr0].
        { destruct kv as [k x]. unfold member_text, dump_string, quoted. by eexists. }
        unfold body.
        destruct l; cbn [map join]; rewrite Hr0; cbn [app]; rewrite skip_ws_stop by done;
          by eexists. }
      destruct Hhd as (r & -> & Hbd). rewrite <- Hbd.
      change (dquote =? ord "}") with false. cbv iota. exact Hb.
Qed.

Lemma join_size {A} (g : A → str) (sz : A → nat) sep l :
  (1 ≤ length sep)%nat → Forall (λ x, sz x ≤ length (g x))%nat l →
  (list_sum (map (λ x, S (sz x)) l) ≤ S (length (join sep (map g l))))%nat.
Proof.
  intros Hsep Hl. induction Hl as [|x l Hx Hl IH]; [simpl; lia|].
  cbn [map]. rewrite list_sum_cons. destruct l as [|y l].
  - simpl. lia.
  - cbn [map] in *. rewrite join_cons2, !length_app. lia.
Qed.

Lemma list_sum_elem {A} (f : A → nat) (l : list A) (x : A) :
  x ∈ l → (f x ≤ list_sum (map f l))%nat.
Proof. induction 1; cbn [map]; rewrite list_sum_cons; lia. Qed.

Lemma dump_block_length level o c items :
  items ≠ [] →
  (length o + length c + 2 + length (join (lit "," ++ newline_indent (S level)) items)
   ≤ length (dump_block level o c items))%nat.
Proof.
  intros Hne. unfold dump_block. destruct items; [done|].
  rewrite !length_app. unfold newline_indent. simpl. lia.
Qed.

Lemma size_le_dump n : ∀ v level, (size v ≤ n)%nat → (size v ≤ length (dump level v))%nat.
Proof.
  induction n as [|n IH]; intros v level Hn; [destruct v; simpl in Hn; lia|].
  destruct v as [|[]|z|s|l|l]; cbn [dump size] in *.
  - simpl. lia.
  - simpl. lia.
  - simpl. lia.
  - destruct (decimal_head z) as (c & r & -> & _). simpl. lia.
  - unfold dump_string, quoted. simpl. lia.
  - destruct l as [|x l]; [simpl; lia|].
    pose proof (dump_block_length level (lit "[") (lit "]") (map (dump (S level)) (x :: l))) as Hb.
    specialize (Hb ltac:(done)).
    pose proof (join_size (dump (S level)) size (lit "," ++ newline_indent (S level)) (x :: l)) as Hj.
    assert (Hall : Forall (λ y, size y ≤ length (dump (S level) y))%nat (x :: l)).
    { apply Forall_forall. intros y Hy. apply IH.
      pose proof (list_sum_elem (λ x, S (size x)) _ _ Hy) as Hle. simpl in Hle.
      apply le_S_n. eapply Nat.le_trans; [exact Hle|].
      eapply Nat.le_trans; [|exact Hn]. apply Nat.le_succ_diag_r. }
    specialize (Hj ltac:(simpl; lia) Hall).
    change (length (lit "[")) with 1%nat in Hb. change (length (lit "]")) with 1%nat in Hb. lia.
  - destruct l as [|kv l]; [simpl; lia|].
    rewrite dump_obj_members in *.
    pose proof (dump_block_length level (lit "{") (lit "}") (map (member_text level) (kv :: l))) as Hb.
    specialize (Hb ltac:(done)).
    pose proof (join_size (member_text level) (λ kv, size kv.2)
                  (lit "," ++ newline_indent (S level)) (kv :: l)) as Hj.
    assert (Heq : map (λ '(_, x), S (size x)) (kv :: l) = map (λ kv, S (size kv.2)) (kv :: l)).
    { apply map_ext. by intros []. }
    rewrite Heq in *.
    assert (Hall : Forall (λ kv, size kv.2 ≤ length (member_text level kv))%nat (kv :: l)).
    { apply Forall_forall. intros [k y] Hy. unfold member_text. cbn [snd].
      assert (size y ≤ length (dump (S level) y))%nat as Hy'.
      { apply IH.
        pose proof (list_sum_elem (λ kv, S (size kv.2)) _ _ Hy) as Hle. simpl in Hle.
        apply le_S_n. eapply Nat.le_trans; [exact Hle|].
        eapply Nat.le_trans; [|exact Hn]. apply Nat.le_succ_diag_r. }
      rewrite !length_app. lia. }
    specialize (Hj ltac:(simpl; lia) Hall).
    change (length (lit "{")) with 1%nat in Hb. change (length (lit "}")) with 1%nat in Hb. lia.
Qed.

Lemma obj_set_keys k v acc :
  map fst (obj_set k v acc)
  = if decide (k ∈ map fst acc) then map fst acc else map fst acc ++ [k].
Proof.
  induction acc as [|[k' v'] acc IH]; simpl; [done|].
  destruct (decide (k = k')) as [->|Hne]; simpl.
  - rewrite decide_True by apply list_elem_of_here. done.
  - rewrite IH. destruct (decide (k ∈ map fst acc)) as [Hin|Hnin].
    + rewrite decide_True by (by apply list_elem_of_further). done.
    + rewrite decide_False; [done|]. rewrite elem_of_cons. tauto.
Qed.

Lemma obj_set_elem k v acc kv : kv ∈ obj_set k v acc → kv ∈ acc ∨ kv = (k, v).
Proof.
  induction acc as [|[k' v'] acc IH]; simpl.
  - intros ->%list_elem_of_singleton. by right.
  - destruct (decide (k = k')) as [->|Hne].
    + intros [->|Hin]%elem_of_cons; [by right|]. left. by apply list_elem_of_further.
    + intros [->|Hin]%elem_of_cons; [left; apply list_elem_of_here|].
      destruct (IH Hin) as [?|?]; [left; by apply list_elem_of_further|by right].
Qed.

Lemma obj_set_wf k v acc :
  wf (JObj acc) → Forall plain_char k → wf v → wf (JObj (obj_set k v acc)).
Proof.
  intros Hacc Hk Hv. inversion Hacc as [| | | | |? Hnd Hall]; subst. constructor.
  - rewrite obj_set_keys. destruct (decide _); [done|].
    apply NoDup_app. split; [done|]. split; [|apply NoDup_singleton].
    intros x Hx ->%list_elem_of_singleton. done.
  - apply Forall_forall. intros kv [Hin| ->]%obj_set_elem; [|done].
    by apply (proj1 (Forall_forall _ _) Hall).
Qed.

Lemma parse_wf fuel :
  (∀ s v r, parse_value fuel s = Some (v, r) → wf v) ∧
  (∀ s acc v r, Forall wf acc → parse_elems fuel s acc = Some (v, r) → wf v) ∧
  (∀ s acc v r, wf (JObj acc) → parse_members fuel s acc = Some (v, r) → wf v).
Proof.
  induction fuel as [|fuel (IHv & IHe & IHm)]; [repeat split; intros; discriminate|].
  split; [|split].
  - intros s v r. cbn [parse_value]. destruct s as [|c s]; [done|].
    destruct (c =? dquote).
    { destruct (scan_string s []) as [[t r']|] eqn:Es; [|done].
      cbn [mbind option_bind]. intros [= <- <-]. constructor.
      eapply scan_string_plain; [exact Es|constructor]. }
    destruct (c =? ord "{").
    { destruct (skip_ws s) as [|d r']; [done|].
      destruct (d =? ord "}").
      - intros [= <- <-]. constructor; [constructor|constructor].
      - apply IHm. constructor; [constructor|constructor]. }
    destruct (c =? ord "[").
    { destruct (skip_ws s) as [|d r']; [done|].
      destruct (d =? ord "]").
      - intros [= <- <-]. by repeat constructor.
      - by apply IHe. }
    destruct (startswith (lit "null") (c :: s)); [intros [= <- <-]; constructor|].
    destruct (startswith (lit "true") (c :: s)); [intros [= <- <-]; constructor|].
    destruct (startswith (lit "false") (c :: s)); [intros [= <- <-]; constructor|].
    destruct (scan_int (c :: s)) as [[z r']|]; [|done].
    cbn [mbind option_bind]. intros [= <- <-]. constructor.
  - intros s acc v r Hacc. cbn [parse_elems].
    destruct (parse_value fuel s) as [[x r']|] eqn:Ex; [|done]. cbn [mbind option_bind].
    apply IHv in Ex.
    destruct (skip_ws r') as [|c r'']; [done|].
    destruct (c =? ord "]").
    { intros [= <- <-]. constructor. change (rev (x :: acc)) with (rev acc ++ [x]).
      apply Forall_app. split; [by apply Forall_rev|by repeat constructor]. }
    destruct (c =? ord ","); [|done].
    apply IHe. by constructor.
  - intros s acc v r Hacc. cbn [parse_members].
    destruct s as [|q s]; [done|]. destruct (q =? dquote); [|done].
    destruct (scan_string s []) as [[k r1]|] eqn:Ek; [|done]. cbn [mbind option_bind].
    assert (Hk : Forall plain_char k) by (eapply scan_string_plain; [exact Ek|constructor]).
    destruct (skip_ws r1) as [|c r2]; [done|]. destruct (c =? ord ":"); [|done].
    destruct (parse_value fuel (skip_ws r2)) as [[x r3]|] eqn:Ex; [|done].
    cbn [mbind option_bind]. apply IHv in Ex.
    destruct (skip_ws r3) as [|d r4]; [done|].
    destruct (d =? ord "}").
    { intros [= <- <-]. by apply obj_set_wf. }
    destruct (d =? ord ","); [|done].
    apply IHm. by apply obj_set_wf.
Qed.

Lemma loads_wf s v : loads s = Ok v → wf v.
Proof.
  unfold loads. destruct (parse_value _ _) as [[v' r]|] eqn:E; [|done].
  destruct (skip_ws r); [|done]. intros [= <-]. by eapply (proj1 (parse_wf _)).
Qed.

(** What [dumps] prints for a value that [loads] built parses back to that
    value. *)
Theorem loads_dumps_roundtrip s v t : loads s = Ok v → dumps v = Ok t → loads t = Ok v.
Proof.
  intros Hv%loads_wf [= <-]. unfold loads.
  rewrite <- (app_nil_r (dump 0 v)) at 2. rewrite skip_ws_value.
  rewrite roundtrips_all; [done| |done|done].
  pose proof (size_le_dump _ v 0%nat (Nat.le_refl _)). lia.
Qed.

(** On the reference library [norm] is idempotent, whatever the input. *)
Corollary norm_idempotent_reference (s : str) :
  (t ← norm (H := lib) s; norm (H := lib) t) = norm (H := lib) s.
Proof.
  destruct (norm_cases (H := lib) s) as [Hs|(v & t & Hl & Hd & Hs)].
  - rewrite Hs. simpl. exact Hs.
  - rewrite Hs. simpl. apply (norm_serialised (H := lib) v t Hd).
    by apply (loads_dumps_roundtrip s).
Qed.

End RefLibFacts.

Lemma response_precedence_witness :
  let b := {| oid := 1; chars := Ex.both_block |} in
  is_resp (H := RefLib.lib) b = true ∧ is_req (H := RefLib.lib) b = false.
Proof.
  intros b.
  destruct (response_precedence (H := RefLib.lib) b) as (Hr & Hq & _).
  - exists (lit "rspcode"). split; [|vm_compute; reflexivity].
    apply list_elem_of_further, list_elem_of_here.
  - exists (lit "custid"). split; [|vm_compute; reflexivity].
    apply list_elem_of_further, list_elem_of_here.
  - by split.
Defined.

Lemma select_io_distinct_witness :
  ∃ inp out, select_io (H := RefLib.lib) (alloc [Ex.req_block; Ex.resp_block]) = (inp, out) ∧
             chars inp = Ex.req_block ∧ chars out = Ex.resp_block ∧ inp ≠ out.
Proof.
  exists {| oid := 1; chars := Ex.req_block |}, {| oid := 2; chars := Ex.resp_block |}.
  assert (Hsel : select_io (H := RefLib.lib) (alloc [Ex.req_block; Ex.resp_block])
                 = ({| oid := 1; chars := Ex.req_block |}, {| oid := 2; chars := Ex.resp_block |}))
    by (vm_compute; reflexivity).
  split; [exact Hsel|]. split; [done|]. split; [done|].
  apply (select_io_distinct (H := RefLib.lib) _ _ _ Hsel).
  - left. vm_compute. reflexivity.
  - vm_compute. discriminate.
  - vm_compute. discriminate.
Defined.

(** C3.  The code at a failing input.  For the only candidate of the text
    [POST /v1/query {"rspCode":"0000","rspMsg":"..."}], a response-like
    block, the input falls back to the longest of all candidates and the
    response rule selects the output: both are this one block, and the row
    that [main] writes carries it as input and as output. *)
Theorem lone_response_block_selected_twice :
  let b := {| oid := 1; chars := Ex.resp_block |} in
  alloc (json_blocks_near Ex.resp_text 5 default_radius default_max_blocks) = [b] ∧
  input_by_rule (H := RefLib.lib) [b] = false ∧
  output_by_rule (H := RefLib.lib) [b] = true ∧
  select_io (H := RefLib.lib) [b] = (b, b) ∧ chars b ≠ [] ∧
  ∃ r, main (H := RefLib.lib) [Ex.resp_pdf] = Ok [r] ∧
       URL r = lit "/v1/query" ∧ Input r = Output r ∧ Input r ≠ [].
Proof.
  vm_compute. repeat split; try done.
  eexists. repeat split; done.
Qed.

Lemma norm_never_raises_witness :
  norm (H := RefLib.lib) [] = Ok [] ∧
  norm (H := RefLib.lib) (lit "{} x") = Ok (lit "{} x") ∧
  norm (H := RefLib.lib) (lit "{") = Ok (lit "{").
Proof.
  split; [|split].
  - apply (norm_never_raises (H := RefLib.lib) []) with RefLib.decode_error.
    vm_compute. reflexivity.
  - apply (norm_never_raises (H := RefLib.lib) (lit "{} x")) with RefLib.decode_error.
    vm_compute. reflexivity.
  - apply (norm_never_raises (H := RefLib.lib) (lit "{")) with RefLib.decode_error.
    vm_compute. reflexivity.
Defined.

Lemma norm_idempotent_witness :
  (t ← norm (H := RefLib.lib) Ex.req_block; norm (H := RefLib.lib) t)
  = norm (H := RefLib.lib) Ex.req_block.
Proof.
  apply (norm_idempotent (H := RefLib.lib) Ex.req_block).
  intros v t. apply RefLibFacts.loads_dumps_roundtrip.
Defined.

(** ** Record assembly *)

Lemma name_le_trans f g h : name_le f g → name_le g h → name_le f h.
Proof.
  unfold name_le. intros Hfg Hgh.
  destruct (str_ltb (pdf_name h) (pdf_name f)) eqn:Hhf; [|done].
  destruct (str_ltb (pdf_name f) (pdf_name g)) eqn:Hfg'.
  - by rewrite (str_ltb_trans _ _ _ Hhf Hfg') in Hgh.
  - rewrite (str_ltb_total _ _ Hfg' Hfg) in Hhf. congruence.
Qed.

Lemma insert_sorted_perm f l : insert_sorted f l ≡ₚ f :: l.
Proof.
  induction l as [|g l IH]; simpl; [done|].
  destruct (str_ltb _ _); [|done]. rewrite IH. apply Permutation_swap.
Qed.

Lemma sorted_perm l : sorted l ≡ₚ l.
Proof.
  induction l as [|f l IH]; simpl; [done|].
  fold (sorted l). by rewrite insert_sorted_perm, IH.
Qed.

Lemma insert_sorted_sorted f l :
  StronglySorted name_le l → StronglySorted name_le (insert_sorted f l).
Proof.
  induction 1 as [|g l Hl IH Hg]; simpl.
  - repeat constructor.
  - destruct (str_ltb (pdf_name g) (pdf_name f)) eqn:E.
    + assert (Hgf : name_le g f).
      { unfold name_le. destruct (str_ltb (pdf_name f) (pdf_name g)) eqn:E'; [|done].
        pose proof (str_ltb_trans _ _ _ E E') as Hx. by rewrite str_ltb_irrefl in Hx. }
      constructor; [done|]. rewrite insert_sorted_perm. by constructor.
    + constructor; [by constructor|]. constructor; [done|].
      eapply Forall_impl; [exact Hg|]. intros h. by apply name_le_trans.
Qed.

(** The sort is stable: files already in order, equal names included, stay
    as they are. *)
Lemma sorted_fixed l : StronglySorted name_le l → sorted l = l.
Proof.
  induction 1 as [|f l Hl IH Hf]; simpl; [done|].
  fold (sorted l). rewrite IH. destruct l as [|g l']; [done|]. simpl.
  rewrite Forall_cons in Hf. destruct Hf as [Hfg _]. unfold name_le in Hfg. by rewrite Hfg.
Qed.

Lemma sorted_sorted l : StronglySorted name_le (sorted l).
Proof.
  induction l as [|f l IH]; simpl; [constructor|]. by apply insert_sorted_sorted.
Qed.

Lemma indexed_from_app idx rows new :
  indexed_from idx rows → indexed_from (idx + Z.of_nat (length rows)) new →
  indexed_from idx (rows ++ new).
Proof.
  intros H1 H2 i r. rewrite lookup_app_Some. intros [Hi|[Hlen Hi]]; [by apply H1|].
  rewrite (H2 _ _ Hi). lia.
Qed.

Lemma indexed_from_map idx rows :
  indexed_from idx rows →
  map Index rows = (λ i, idx + Z.of_nat i)%Z <$> seq 0 (length rows).
Proof.
  revert idx; induction rows as [|r rows IH]; intros idx Hx; simpl; [done|].
  f_equal.
  - rewrite (Hx 0%nat r eq_refl). lia.
  - rewrite (IH (idx + 1)%Z).
    + rewrite <- fmap_S_seq, <- list_fmap_compose. apply list_fmap_ext.
      intros _ i _. simpl. lia.
    + intros i r' Hl. rewrite (Hx (S i) r' Hl). lia.
Qed.

Section AssemblerProps.
Context `{PyLib}.

Lemma url_step_spec name text rows idx url :
  ∃ r, url_step name text (rows, idx) url = Ok (rows ++ [r], (idx + 1)%Z) ∧
       Index r = idx ∧ FileName r = name ∧ URL r = url ∧
       Method r = lit "POST" ∧ ResponseCode r = lit "200".
Proof.
  unfold url_step.
  match goal with |- context [pick_io ?b] => destruct (pick_io_total b) as (a & o & ->) end.
  simpl. eexists. split; [done|]. done.
Qed.

Lemma for_each_url_step name text urls rows idx :
  ∃ new, for_each (url_step name text) urls (rows, idx)
           = Ok (rows ++ new, (idx + Z.of_nat (length new))%Z) ∧
         map entry new = map (pair name) urls ∧ indexed_from idx new.
Proof.
  revert rows idx; induction urls as [|u urls IH]; intros rows idx; cbn [for_each length].
  - exists []. rewrite app_nil_r, Z.add_0_r. repeat split. intros ? ? [=].
  - destruct (url_step_spec name text rows idx u) as (r & -> & Hi & Hn & Hu & _).
    cbn [mbind result_bind]. destruct (IH (rows ++ [r]) (idx + 1)%Z) as (new & -> & Hm & Hx).
    exists (r :: new). rewrite <- app_assoc. simpl. split; [f_equal; f_equal; lia|].
    split; [unfold entry at 1; by rewrite Hn, Hu, Hm|].
    intros [|i] r'; simpl.
    + intros [= <-]. lia.
    + intros Hl. rewrite (Hx _ _ Hl). lia.
Qed.

Lemma pdf_step_spec f rows idx :
  ∃ new, pdf_step (rows, idx) f = Ok (rows ++ new, (idx + Z.of_nat (length new))%Z) ∧
         map entry new = pdf_entries f ∧ indexed_from idx new ∧
         (truthy (strip (read_pdf_text f)) = false → new = [placeholder idx (pdf_name f)]).
Proof.
  unfold pdf_step, pdf_entries.
  destruct (truthy (strip (read_pdf_text f))) eqn:E; simpl.
  - destruct (for_each_url_step (pdf_name f) (read_pdf_text f)
                (find_urls (read_pdf_text f)) rows idx) as (new & -> & Hm & Hx).
    exists new. done.
  - exists [placeholder idx (pdf_name f)]. repeat split.
    intros [|i] r; simpl; [|done]. intros [= <-]. simpl. lia.
Qed.

Lemma for_each_pdf_step fs rows idx :
  ∃ new, for_each pdf_step fs (rows, idx)
           = Ok (rows ++ new, (idx + Z.of_nat (length new))%Z) ∧
         map entry new = concat (map pdf_entries fs) ∧ indexed_from idx new.
Proof.
  revert rows idx; induction fs as [|f fs IH]; intros rows idx; cbn [for_each length map concat].
  - exists []. rewrite app_nil_r, Z.add_0_r. repeat split. intros ? ? [=].
  - destruct (pdf_step_spec f rows idx) as (new1 & -> & Hm1 & Hx1 & _). cbn [mbind result_bind].
    destruct (IH (rows ++ new1) (idx + Z.of_nat (length new1))%Z) as (new2 & -> & Hm2 & Hx2).
    exists (new1 ++ new2). rewrite <- app_assoc, length_app, map_app, Hm1, Hm2.
    split; [f_equal; f_equal; lia|]. split; [done|]. by apply indexed_from_app.
Qed.

Lemma main_spec files :
  ∃ rows, main files = Ok rows ∧
          map entry rows = concat (map pdf_entries (sorted files)) ∧
          indexed_from 1 rows.
Proof.
  unfold main. destruct (for_each_pdf_step (sorted files) [] 1%Z) as (rows & -> & Hm & Hx).
  simpl. by exists rows.
Qed.

(** C1 (as amended).  A file whose text is blank appends exactly one
    placeholder row, with empty URL, input and output; any other file
    appends exactly one row per discovered endpoint, in discovery order, all
    under its name: [N] rows for [N] endpoints, hence none when no endpoint
    is discovered. *)
Theorem pdf_step_records (f : pdf) (rows : list row) (idx : Z) :
  ∃ new, pdf_step (rows, idx) f = Ok (rows ++ new, (idx + Z.of_nat (length new))%Z) ∧
    if truthy (strip (read_pdf_text f))
    then map URL new = find_urls (read_pdf_text f) ∧
         length new = length (find_urls (read_pdf_text f)) ∧
         Forall (λ r, FileName r = pdf_name f) new
    else new = [placeholder idx (pdf_name f)].
Proof.
  destruct (pdf_step_spec f rows idx) as (new & Hs & Hm & _ & Hp).
  exists new. split; [done|]. unfold pdf_entries in Hm.
  destruct (truthy (strip (read_pdf_text f))); [|by apply Hp].
  assert (Hu : map URL new = find_urls (read_pdf_text f)).
  { transitivity (map snd (map entry new)).
    - rewrite map_map. done.
    - rewrite Hm, map_map. simpl. apply map_id. }
  split; [done|]. split; [by rewrite <- Hu, length_map|].
  apply Forall_forall. intros r Hr.
  assert (entry r ∈ map entry new) as He by (by apply list_elem_of_fmap_2).
  rewrite Hm in He. apply list_elem_of_fmap in He as (u & He & _).
  by injection He.
Qed.

(** C7.  [main] never raises, and its rows carry the indices 1, 2, 3, ... in
    order, whatever file they come from; the rows are those of the files in
    the order of their names, each file giving its rows in discovery order.
    Two files with two rows each get the indices 1, 2, 3, 4. *)
Theorem global_index_sequence (files : list pdf) :
  ∃ rows, main files = Ok rows ∧
    map Index rows = (λ i, 1 + Z.of_nat i)%Z <$> seq 0 (length rows) ∧
    map entry rows = concat (map pdf_entries (sorted files)) ∧
    StronglySorted name_le (sorted files) ∧ sorted files ≡ₚ files ∧
    (∀ f g, files = [f; g] →
       length (pdf_entries f) = 2%nat → length (pdf_entries g) = 2%nat →
       map Index rows = [1; 2; 3; 4]%Z).
Proof.
  destruct (main_spec files) as (rows & Hmain & Hm & Hx).
  exists rows. split; [done|]. apply indexed_from_map in Hx.
  split; [done|]. split; [done|]. split; [apply sorted_sorted|]. split; [apply sorted_perm|].
  intros f g -> Hf Hg.
  assert (Hlen : length rows = 4%nat).
  { rewrite <- (length_map entry rows), Hm. simpl.
    destruct (str_ltb (pdf_name g) (pdf_name f)); simpl;
      rewrite !length_app, Hf, Hg; done. }
  rewrite Hx, Hlen. reflexivity.
Qed.

End AssemblerProps.

(** C1, as stated, fails: a file whose text is not blank and declares no
    endpoint appends no row at all. *)
Lemma nonblank_without_endpoint_no_record :
  truthy (strip (read_pdf_text Ex.notes_pdf)) = true ∧
  pdf_step (H := RefLib.lib) ([], 1%Z) Ex.notes_pdf = Ok ([], 1%Z) ∧
  main (H := RefLib.lib) [Ex.notes_pdf] = Ok [].
Proof. vm_compute. repeat split; done. Qed.

Lemma global_index_sequence_witness :
  ∃ rows, main (H := RefLib.lib) [Ex.pay_pdf; Ex.acct_pdf] = Ok rows ∧
          map Index rows = [1; 2; 3; 4]%Z ∧
          map entry rows = [(lit "acct.pdf", lit "/v1/open"); (lit "acct.pdf", lit "/v1/close");
                            (lit "pay.pdf", lit "/v1/pay"); (lit "pay.pdf", lit "/v1/refund")].
Proof.
  destruct (global_index_sequence (H := RefLib.lib) [Ex.pay_pdf; Ex.acct_pdf])
    as (rows & Hmain & _ & Hm & _ & _ & Hex).
  exists rows. split; [done|]. split.
  - apply (Hex Ex.pay_pdf Ex.acct_pdf eq_refl); vm_compute; reflexivity.
  - rewrite Hm. vm_compute. reflexivity.
Defined.

(** * Further properties *)

(** ** The text of a file: [read_pdf_text] *)

Lemma halfwidth_not_fullwidth c : ¬ fullwidth (halfwidth c).
Proof.
  unfold halfwidth, fullwidth.
  destruct (N.eqb_spec c 65306); [vm_compute; intuition discriminate|].
  destruct (N.eqb_spec c 65288); [vm_compute; intuition discriminate|].
  destruct (N.eqb_spec c 65289); [vm_compute; intuition discriminate|].
  destruct (N.eqb_spec c 65294); [vm_compute; intuition discriminate|].
  destruct (N.eqb_spec c 65293); [vm_compute; intuition discriminate|].
  intuition congruence.
Qed.

Lemma isspace_halfwidth c : isspace (halfwidth c) = isspace c.
Proof.
  unfold halfwidth.
  destruct (N.eqb_spec c 65306) as [->|?]; [reflexivity|].
  destruct (N.eqb_spec c 65288) as [->|?]; [reflexivity|].
  destruct (N.eqb_spec c 65289) as [->|?]; [reflexivity|].
  destruct (N.eqb_spec c 65294) as [->|?]; [reflexivity|].
  destruct (N.eqb_spec c 65293) as [->|?]; [reflexivity|]. done.
Qed.

Lemma lstrip_split s :
  ∃ ws, s = ws ++ lstrip s ∧ blank ws ∧ ends_run isspace (lstrip s).
Proof.
  induction s as [|c s (ws & Hs & Hws & He)]; simpl.
  - exists []. repeat split; [constructor|]. intros ? ? [=].
  - destruct (isspace c) eqn:Hc.
    + exists (c :: ws). split; [by rewrite Hs at 1|]. split; [by constructor|done].
    + exists []. repeat split; [constructor|]. by intros ? ? [= <- <-].
Qed.

Lemma lstrip_blank s : blank s → lstrip s = [].
Proof. induction 1 as [|c s Hc _ IH]; simpl; [done|]. by rewrite Hc. Qed.

Lemma lstrip_nil_blank s : lstrip s = [] → blank s.
Proof.
  intros Hl. destruct (lstrip_split s) as (ws & Hs & Hws & _).
  rewrite Hl, app_nil_r in Hs. by subst.
Qed.

Lemma Forall_lstrip (P : char → Prop) s : Forall P s → Forall P (lstrip s).
Proof.
  intros Hs. destruct (lstrip_split s) as (ws & Heq & _).
  rewrite Heq in Hs. by apply Forall_app in Hs as [_ ?].
Qed.

Lemma Forall_strip (P : char → Prop) s : Forall P s → Forall P (strip s).
Proof.
  intros Hs. unfold strip, rstrip.
  apply Forall_rev, Forall_lstrip, Forall_rev, Forall_lstrip, Hs.
Qed.

(** [s.strip()] is empty exactly when [s] is all whitespace. *)
Lemma strip_nil_blank s : strip s = [] ↔ blank s.
Proof.
  unfold strip, rstrip. split.
  - intros Hr. apply (f_equal (@rev _)) in Hr. rewrite rev_involutive in Hr. simpl in Hr.
    apply lstrip_nil_blank in Hr. apply Forall_rev in Hr. rewrite rev_involutive in Hr.
    destruct (lstrip_split s) as (ws & Hs & Hws & He).
    destruct (lstrip s) as [|c r] eqn:El; [by apply lstrip_nil_blank|].
    apply Forall_cons in Hr as [Hc _]. rewrite (He c r eq_refl) in Hc. done.
  - intros Hs. by rewrite (lstrip_blank s Hs).
Qed.

Lemma lstrip_snoc x c : isspace c = false → ∃ y, lstrip (x ++ [c]) = y ++ [c].
Proof.
  intros Hc. induction x as [|d x [y IH]]; simpl.
  - rewrite Hc. by exists [].
  - destruct (isspace d); [by exists y|]. by exists (d :: x).
Qed.

(** A trimmed string that is not empty begins and ends with a character
    that is not whitespace. *)
Lemma strip_ends s :
  ends_run isspace (strip s) ∧ ends_run isspace (rev (strip s)).
Proof.
  unfold strip, rstrip. rewrite rev_involutive.
  destruct (lstrip_split (rev (lstrip s))) as (ws & _ & _ & He). split; [|done].
  destruct (lstrip_split s) as (_ & _ & _ & He').
  destruct (lstrip s) as [|c0 r]; [by intros ? ? [=]|].
  assert (Hc0 := He' c0 r eq_refl).
  destruct (lstrip_snoc (rev r) c0 Hc0) as [y Hy].
  cbn [rev]. rewrite Hy, rev_unit. by intros ? ? [= <- <-].
Qed.

Lemma blank_strip s : blank (strip s) ↔ blank s.
Proof.
  split.
  - intros Hb. apply strip_nil_blank.
    destruct (strip s) as [|c r] eqn:E; [done|].
    apply Forall_cons in Hb as [Hc _].
    destruct (strip_ends s) as [He _]. rewrite E in He. rewrite (He c r eq_refl) in Hc. done.
  - intros Hb. apply strip_nil_blank in Hb. rewrite Hb. constructor.
Qed.

Lemma Forall_join (P : char → Prop) sep l :
  Forall P sep → Forall (Forall P) l → Forall P (join sep l).
Proof.
  intros Hsep. induction 1 as [|x l Hx Hl IH]; [constructor|].
  destruct l as [|y l]; [done|]. change (join sep (x :: y :: l)) with (x ++ sep ++ join sep (y :: l)).
  by repeat (apply Forall_app; split).
Qed.

Lemma Forall_join_inv (P : char → Prop) sep l :
  Forall P (join sep l) → Forall (Forall P) l.
Proof.
  induction l as [|x l IH]; [constructor|].
  destruct l as [|y l]; [by repeat constructor|].
  change (join sep (x :: y :: l)) with (x ++ sep ++ join sep (y :: l)).
  intros [Hx [_ Hl]%Forall_app]%Forall_app. constructor; [done|]. by apply IH.
Qed.

Lemma read_lines_fold pages acc :
  foldl (λ lines page,
           let t := default [] page in
           if truthy t then lines ++ [strip (map halfwidth t)] else lines)
        acc pages
  = acc ++ page_lines pages.
Proof.
  revert acc; induction pages as [|page pages IH]; intros acc; cbn [foldl].
  - unfold page_lines. cbn [map]. rewrite filter_nil. cbn [map]. by rewrite app_nil_r.
  - rewrite IH. unfold page_lines. cbn [map]. cbv zeta.
    destruct (default [] page) as [|c t]; cbn [truthy].
    + rewrite filter_cons_False by (intros Hn; by apply Hn). done.
    + rewrite filter_cons_True by done. cbn [map]. by rewrite <- app_assoc.
Qed.

(** The text of a file is its page lines joined by line feeds. *)
Lemma read_pdf_text_lines f : read_pdf_text f = join [10] (page_lines (pdf_pages f)).
Proof. unfold read_pdf_text. by rewrite read_lines_fold. Qed.

(** X1.  The text that [read_pdf_text] returns contains none of the five
    full-width characters it replaces, whatever the pages hold. *)
Theorem read_pdf_text_halfwidth (f : pdf) :
  Forall (λ c, ¬ fullwidth c) (read_pdf_text f).
Proof.
  rewrite read_pdf_text_lines. apply Forall_join.
  - repeat constructor. unfold fullwidth. intuition discriminate.
  - unfold page_lines. apply Forall_map, Forall_forall. intros t _. simpl.
    apply Forall_strip, Forall_map, Forall_forall. intros c _. apply halfwidth_not_fullwidth.
Qed.

Lemma blank_map_halfwidth t : blank (map halfwidth t) ↔ blank t.
Proof.
  unfold blank. rewrite Forall_map. apply Forall_proper; [|done].
  intros c. simpl. by rewrite isspace_halfwidth.
Qed.

(** The text of a file is blank exactly when every page text is missing or
    all white space. *)
Lemma read_pdf_text_blank (f : pdf) :
  truthy (strip (read_pdf_text f)) = false ↔
  ∀ t, Some t ∈ pdf_pages f → blank t.
Proof.
  assert (Ht : truthy (strip (read_pdf_text f)) = false ↔ blank (read_pdf_text f)).
  { rewrite <- strip_nil_blank. by destruct (strip _). }
  rewrite Ht, read_pdf_text_lines. split.
  - intros Hb%Forall_join_inv t Hin.
    destruct t as [|c t]; [constructor|].
    rewrite Forall_forall in Hb.
    apply blank_map_halfwidth, blank_strip, Hb.
    unfold page_lines. apply list_elem_of_fmap. exists (c :: t). split; [done|].
    apply list_elem_of_filter. split; [done|].
    apply list_elem_of_fmap. by exists (Some (c :: t)).
  - intros Hall. apply Forall_join; [by repeat constructor|].
    unfold page_lines. apply Forall_map, Forall_forall.
    intros t [Hne Hin]%list_elem_of_filter. simpl.
    apply list_elem_of_fmap in Hin as (page & -> & Hin).
    apply blank_strip, blank_map_halfwidth.
    destruct page as [t|]; [by apply Hall|constructor].
Qed.

(** ** The brace scan: [json_blocks_near] *)

Lemma index_of_first c s p : index_of c s = Some p → Forall (λ x, x ≠ c) (take p s).
Proof.
  revert p; induction s as [|x s IH]; intros p; simpl; [done|].
  destruct (N.eqb_spec x c) as [->|Hne].
  - intros [= <-]. constructor.
  - destruct (index_of c s) as [q|]; [|done]. simpl. intros [= <-].
    simpl. constructor; [done|]. by apply IH.
Qed.

Lemma find_char_first c s i p :
  find_char c s i = Some p → Forall (λ x, x ≠ c) (substr s i p).
Proof.
  unfold find_char, substr. destruct (index_of c (drop i s)) as [q|] eqn:E; [|done].
  simpl. intros [= <-]. replace (i + q - i)%nat with q by lia. by apply index_of_first.
Qed.

Lemma depth_app a b : depth (a ++ b) = (depth a + depth b)%Z.
Proof. induction a as [|c a IH]; simpl; [done|]. rewrite IH. lia. Qed.

(** The inner loop stops at the first closing brace that brings the depth
    back to zero. *)
Lemma scan_depth_spec rest j d j' :
  (1 ≤ d)%Z → scan_depth rest j d = Some j' →
  (j ≤ j')%nat ∧ rest !! (j' - j)%nat = Some rbrace ∧
  (d + depth (take (S (j' - j)) rest) = 0)%Z ∧
  ∀ m, (m ≤ j' - j)%nat → (0 < d + depth (take m rest))%Z.
Proof.
  revert j d; induction rest as [|ch rest IH]; intros j d Hd; cbn [scan_depth]; [done|].
  assert (Hstep : ∀ d', (1 ≤ d')%Z →
            (d' = d + brace_step ch)%Z →
            scan_depth rest (S j) d' = Some j' →
            (j ≤ j')%nat ∧ (ch :: rest) !! (j' - j)%nat = Some rbrace ∧
            (d + depth (take (S (j' - j)) (ch :: rest)) = 0)%Z ∧
            ∀ m, (m ≤ j' - j)%nat → (0 < d + depth (take m (ch :: rest)))%Z).
  { intros d' Hd' Heq Hs. destruct (IH _ _ Hd' Hs) as (Hj & Hl & Hz & Hpos).
    replace (j' - j)%nat with (S (j' - S j)) by lia.
    split; [lia|]. split; [done|]. split.
    - cbn [take depth]. lia.
    - intros [|m] Hm; [simpl; lia|]. cbn [take depth]. specialize (Hpos m ltac:(lia)). lia. }
  destruct (N.eqb_spec ch lbrace) as [->|Hl].
  { intros Hs. apply (Hstep (d + 1)%Z); [lia|done|done]. }
  destruct (N.eqb_spec ch rbrace) as [->|Hr].
  - destruct (Z.eqb_spec (d - 1) 0) as [Hz|Hz].
    + intros [= <-]. replace (j - j)%nat with 0%nat by lia.
      split; [lia|]. split; [done|]. split.
      * cbn [take depth]. rewrite take_0. cbn [depth]. change (brace_step rbrace) with (-1)%Z. lia.
      * intros m Hm. replace m with 0%nat by lia. simpl. lia.
    + intros Hs. apply (Hstep (d - 1)%Z); [lia|done|done].
  - intros Hs. apply (Hstep d); [lia| |done]. unfold brace_step.
    destruct (N.eqb_spec ch lbrace); [done|]. destruct (N.eqb_spec ch rbrace); [done|]. lia.
Qed.

(** What one iteration of the [while] loop computes from [p] and [j]. *)
Lemma block_shape span i p j :
  find_char lbrace span i = Some p →
  scan_depth (drop p span) p 0 = Some j →
  let raw := strip (substr span p (j + 1)) in
  (i ≤ p)%nat ∧ (p < j < length span)%nat ∧
  raw = substr span p (j + 1) ∧
  (∃ mid, raw = lbrace :: mid ++ [rbrace]) ∧ balanced raw ∧
  take (j + 1) span = take i span ++ substr span i p ++ raw.
Proof.
  intros Hp Hj. pose proof (find_char_Some _ _ _ _ Hp) as [Hip Hlp].
  pose proof (scan_depth_bounds _ _ _ _ Hj) as Hb. rewrite length_drop in Hb.
  assert (Hd : drop p span = lbrace :: drop (S p) span).
  { by apply drop_S. }
  rewrite Hd in Hj. cbn [scan_depth] in Hj.
  change (lbrace =? lbrace) with true in Hj. cbv iota in Hj.
  apply scan_depth_spec in Hj as (Hle & Hl & Hz & Hpos); [|lia].
  set (k := (j - S p)%nat) in *.
  assert (Hsub : substr span p (j + 1) = lbrace :: take (S k) (drop (S p) span)).
  { unfold substr. rewrite Hd. replace (j + 1 - p)%nat with (S (S k)) by lia. done. }
  assert (Hlast : take (S k) (drop (S p) span) = take k (drop (S p) span) ++ [rbrace]).
  { by apply take_S_r. }
  assert (Hraw : strip (substr span p (j + 1)) = substr span p (j + 1)).
  { rewrite Hsub, Hlast. by apply strip_delimited. }
  cbv zeta. rewrite Hraw. split; [lia|]. split; [lia|]. split; [done|].
  split; [rewrite Hsub, Hlast; by eexists|]. split.
  - rewrite Hsub. split.
    + cbn [depth]. change (brace_step lbrace) with 1%Z. lia.
    + intros [|m] Hm; [lia|]. cbn [take depth]. change (brace_step lbrace) with 1%Z.
      cbn [length] in Hm. rewrite length_take, length_drop in Hm.
      rewrite take_take. rewrite Nat.min_l by lia.
      specialize (Hpos m ltac:(lia)). lia.
  - unfold substr.
    rewrite <- (take_drop i (take (j + 1) span)) at 1.
    rewrite take_take, Nat.min_l by lia. f_equal.
    rewrite <- (take_drop (p - i) (drop i (take (j + 1) span))).
    rewrite !skipn_firstn_comm, take_take, Nat.min_l by lia.
    f_equal. rewrite drop_drop. replace (j + 1 - i - (p - i))%nat with (j + 1 - p)%nat by lia.
    by replace (i + (p - i))%nat with p by lia.
Qed.

Lemma apart_extend bs s x : apart bs s → apart bs (s ++ x).
Proof.
  induction 1 as [s|gap b bs s _ IH]; [constructor|].
  rewrite <- !app_assoc. by constructor.
Qed.

Lemma apart_snoc bs s gap b : apart bs s → apart (bs ++ [b]) (s ++ gap ++ b).
Proof.
  induction 1 as [s|gap' b' bs s _ IH]; simpl.
  - replace (s ++ gap ++ b) with ((s ++ gap) ++ b ++ []) by (by rewrite app_nil_r, app_assoc).
    repeat constructor.
  - rewrite <- !app_assoc. by constructor.
Qed.

(** An invariant of the [while] loop: it holds at the exit if it holds at
    the entry and each iteration keeps it. *)
Lemma blocks_loop_inv (I : nat → list str → list str → Prop) span mb :
  (∀ i out found p j,
     I i out found → (Z.of_nat (length out) < mb)%Z →
     find_char lbrace span i = Some p → scan_depth (drop p span) p 0 = Some j →
     I (j + 1)%nat
       (if (50 <? length (strip (substr span p (j + 1))))%nat
        then out ++ [strip (substr span p (j + 1))] else out)
       (found ++ [strip (substr span p (j + 1))])) →
  ∀ fuel i out found, I i out found →
    ∃ i', I i' (blocks_loop fuel span mb i out found).1
               (blocks_loop fuel span mb i out found).2.
Proof.
  intros Hstep fuel. induction fuel as [|fuel IH]; intros i out found HI; simpl; [eauto|].
  destruct (Z.ltb_spec (Z.of_nat (length out)) mb) as [Hlt|]; [|eauto].
  destruct (find_char lbrace span i) as [p|] eqn:Ep; [|eauto].
  destruct (scan_depth (drop p span) p 0) as [j|] eqn:Ej; [|eauto].
  apply IH. by apply (Hstep i out found p j).
Qed.

Lemma take_drop_infix (s : str) a n : ∃ pre post, s = pre ++ take n (drop a s) ++ post.
Proof. exists (take a s), (drop n (drop a s)). by rewrite take_drop, take_drop. Qed.

Lemma slice_infix s lo hi : ∃ pre post, s = pre ++ slice s lo hi ++ post.
Proof. apply take_drop_infix. Qed.

Lemma substr_infix s a b : ∃ pre post, s = pre ++ substr s a b ++ post.
Proof. apply take_drop_infix. Qed.

(** X2.  At most [max_blocks] blocks are returned, and none when
    [max_blocks] is zero or negative. *)
Theorem json_blocks_near_cap (text : str) (center radius max_blocks : Z) :
  (Z.of_nat (length (json_blocks_near text center radius max_blocks)) ≤ Z.max 0 max_blocks)%Z.
Proof.
  unfold json_blocks_near, blocks_run.
  destruct (blocks_loop_inv (λ _ out _, (Z.of_nat (length out) ≤ Z.max 0 max_blocks)%Z)
              (window text center radius) max_blocks) with
    (fuel := S (length (window text center radius))) (i := 0%nat)
    (out := @nil str) (found := @nil str) as [_ H]; [|simpl; lia|exact H].
  intros i out found p j HI Hlt _ _. destruct (_ <? _)%nat; [|done].
  rewrite length_app. simpl. lia.
Qed.

(** Every span the loop finds is a part of the window that begins with [{],
    ends with [}], is balanced, and is its own trimmed form. *)
Lemma found_spans_shape (text : str) (center radius max_blocks : Z) (b : str) :
  b ∈ found_spans text center radius max_blocks →
  (∃ mid, b = lbrace :: mid ++ [rbrace]) ∧ balanced b ∧ strip b = b ∧
  ∃ pre post, window text center radius = pre ++ b ++ post.
Proof.
  unfold found_spans, blocks_run. set (span := window text center radius).
  set (P := λ b : str, (∃ mid, b = lbrace :: mid ++ [rbrace]) ∧ balanced b ∧ strip b = b ∧
                       ∃ pre post, span = pre ++ b ++ post).
  destruct (blocks_loop_inv (λ _ _ found, Forall P found) span max_blocks) with
    (fuel := S (length span)) (i := 0%nat) (out := @nil str) (found := @nil str)
    as [_ H]; [|constructor|].
  - intros i out found p j HI _ Hp Hj. apply Forall_app. split; [done|].
    constructor; [|constructor].
    destruct (block_shape span i p j Hp Hj) as (_ & _ & Hraw & Hmid & Hbal & _).
    split; [done|]. split; [done|]. split.
    + destruct Hmid as [mid Hm]. rewrite Hm. by apply strip_delimited.
    + rewrite Hraw. apply substr_infix.
  - intros Hin. by apply (proj1 (Forall_forall _ _) H).
Qed.

Lemma json_blocks_near_found text center radius mb b :
  b ∈ json_blocks_near text center radius mb → b ∈ found_spans text center radius mb.
Proof. rewrite json_blocks_near_kept. by intros [_ ?]%list_elem_of_filter. Qed.

(** X3.  Every block returned is a part of the window that begins with [{]
    and ends with [}]; it is balanced, the nesting depth returning to zero at
    its last character and not before; and trimming changes nothing in it. *)
Theorem json_blocks_near_shape (text : str) (center radius max_blocks : Z) (b : str) :
  b ∈ json_blocks_near text center radius max_blocks →
  (∃ mid, b = lbrace :: mid ++ [rbrace]) ∧ balanced b ∧ strip b = b ∧
  ∃ pre post, window text center radius = pre ++ b ++ post.
Proof. intros Hb%json_blocks_near_found. by apply (found_spans_shape _ _ _ max_blocks). Qed.

(** X4.  Without an opening brace, or without a closing brace, in the text,
    nothing is returned. *)
Theorem json_blocks_near_no_brace (text : str) (center radius max_blocks : Z) :
  lbrace ∉ text ∨ rbrace ∉ text →
  json_blocks_near text center radius max_blocks = [].
Proof.
  intros Hno. destruct (json_blocks_near text center radius max_blocks) as [|b l] eqn:E; [done|].
  assert (Hin : b ∈ found_spans text center radius max_blocks).
  { apply json_blocks_near_found. rewrite E. apply list_elem_of_here. }
  apply found_spans_shape in Hin as ([mid ->] & _ & _ & pre & post & Hw).
  destruct (slice_infix text (Z.max 0 (center - radius))
              (Z.min (Z.of_nat (length text)) (center + radius))) as (pre' & post' & Ht).
  fold (window text center radius) in Ht. rewrite Hw in Ht.
  exfalso. destruct Hno as [Hno|Hno]; apply Hno; rewrite Ht; set_solver.
Qed.

(** X5.  The returned blocks stand in the window in the order returned,
    without overlap; the spans found cover a prefix of the window one after
    the other, with no opening brace in between. *)
Theorem blocks_in_order (text : str) (center radius max_blocks : Z) :
  apart (json_blocks_near text center radius max_blocks) (window text center radius) ∧
  ∃ pre rest, window text center radius = pre ++ rest ∧
              tiles (found_spans text center radius max_blocks) pre.
Proof.
  unfold json_blocks_near, found_spans, blocks_run. set (span := window text center radius).
  destruct (blocks_loop_inv
              (λ i out found, (i ≤ length span)%nat ∧ apart out (take i span) ∧
                              tiles found (take i span)) span max_blocks) with
    (fuel := S (length span)) (i := 0%nat) (out := @nil str) (found := @nil str)
    as [i' (Hi & Ha & Ht)].
  - intros i out found p j (Hi & Ha & Ht) _ Hp Hj.
    destruct (block_shape span i p j Hp Hj) as (_ & Hj' & _ & _ & _ & Htake).
    cbv zeta in Htake. split; [lia|]. rewrite Htake. split.
    + destruct (_ <? _)%nat; [by apply apart_snoc|].
      rewrite app_assoc. by do 2 apply apart_extend.
    + constructor; [done|]. by apply (find_char_first _ _ _ _ Hp).
  - simpl. split; [lia|]. split; constructor.
  - split.
    + pose proof (apart_extend _ _ (drop i' span) Ha) as Ha'. by rewrite take_drop in Ha'.
    + exists (take i' span), (drop i' span). by rewrite take_drop.
Qed.

Lemma blocks_run_whole text center radius mb :
  (center - radius ≤ 0)%Z → (Z.of_nat (length text) ≤ center + radius)%Z →
  blocks_run text center radius mb = blocks_loop (S (length text)) text mb 0 [] [].
Proof. intros H1 H2. unfold blocks_run. by rewrite window_full. Qed.

(** X6.  When the window covers the whole text, the blocks do not depend on
    the center: two centers within [radius] of both ends give the same
    result. *)
Theorem json_blocks_near_center (text : str) (c1 c2 radius max_blocks : Z) :
  (c1 - radius ≤ 0)%Z → (Z.of_nat (length text) ≤ c1 + radius)%Z →
  (c2 - radius ≤ 0)%Z → (Z.of_nat (length text) ≤ c2 + radius)%Z →
  json_blocks_near text c1 radius max_blocks = json_blocks_near text c2 radius max_blocks.
Proof.
  intros H1 H1' H2 H2'. unfold json_blocks_near.
  by rewrite !blocks_run_whole.
Qed.

(** X7.  For a center that is not to the left of [-radius], the window has at
    most [2 * radius] characters, so no returned block is longer. *)
Theorem window_bound (text : str) (center radius max_blocks : Z) :
  (0 ≤ center + radius)%Z →
  (Z.of_nat (length (window text center radius)) ≤ Z.max 0 (2 * radius))%Z ∧
  ∀ b, b ∈ json_blocks_near text center radius max_blocks →
       (Z.of_nat (length b) ≤ 2 * radius)%Z.
Proof.
  intros Hc.
  assert (Hw : (Z.of_nat (length (window text center radius)) ≤ Z.max 0 (2 * radius))%Z).
  { unfold window, slice, clip_index. rewrite length_take, length_drop.
    destruct (Z.ltb_spec (Z.max 0 (center - radius)) 0); [lia|].
    destruct (Z.ltb_spec (Z.min (Z.of_nat (length text)) (center + radius)) 0); lia. }
  split; [done|]. intros b Hb%json_blocks_near_found.
  apply found_spans_shape in Hb as ([mid ->] & _ & _ & pre & post & Heq).
  rewrite Heq, !length_app in Hw. cbn [length] in *. lia.
Qed.

Lemma blocks_loop_grows fuel span mb i out found :
  ∃ more, (blocks_loop fuel span mb i out found).1 = out ++ more.
Proof.
  revert i out found; induction fuel as [|fuel IH]; intros i out found; simpl.
  { exists []. by rewrite app_nil_r. }
  destruct (_ <? mb)%Z; [|exists []; by rewrite app_nil_r].
  destruct (find_char lbrace span i) as [p|]; [|exists []; by rewrite app_nil_r].
  destruct (scan_depth (drop p span) p 0) as [j|]; [|exists []; by rewrite app_nil_r].
  destruct (_ <? _)%nat.
  - destruct (IH (j + 1)%nat (out ++ [strip (substr span p (j + 1))])
                (found ++ [strip (substr span p (j + 1))])) as [more ->].
    rewrite <- app_assoc. eauto.
  - apply IH.
Qed.

Lemma blocks_loop_cap_prefix fuel span m m' i out found :
  (Z.of_nat (length out) ≤ m ≤ m')%Z →
  (blocks_loop fuel span m i out found).1
  = take (Z.to_nat m) (blocks_loop fuel span m' i out found).1.
Proof.
  revert i out found; induction fuel as [|fuel IH]; intros i out found Hm.
  { simpl. rewrite take_ge; [done|lia]. }
  cbn [blocks_loop].
  destruct (Z.ltb_spec (Z.of_nat (length out)) m) as [Hlt|Hge].
  - destruct (Z.ltb_spec (Z.of_nat (length out)) m') as [_|]; [|lia].
    destruct (find_char lbrace span i) as [p|]; [|simpl; rewrite take_ge; [done|lia]].
    destruct (scan_depth (drop p span) p 0) as [j|]; [|simpl; rewrite take_ge; [done|lia]].
    apply IH. destruct (_ <? _)%nat; [rewrite length_app; simpl; lia|lia].
  - assert (Hlen : length out = Z.to_nat m) by lia.
    destruct (blocks_loop_grows (S fuel) span m' i out found) as [more Hmore].
    cbn [blocks_loop] in Hmore. rewrite Hmore. cbn [fst].
    rewrite take_app_length'; done.
Qed.

(** X8.  A smaller [max_blocks] returns the first blocks of what a larger
    one returns. *)
Theorem json_blocks_near_cap_prefix (text : str) (center radius m m' : Z) :
  (0 ≤ m ≤ m')%Z →
  json_blocks_near text center radius m
  = take (Z.to_nat m) (json_blocks_near text center radius m').
Proof.
  intros Hm. unfold json_blocks_near, blocks_run. apply blocks_loop_cap_prefix. simpl. lia.
Qed.

(** ** The selection of [pick_io] *)

Lemma find_first_with {A} (p : A → bool) l x : List.find p l = Some x → first_with p l x.
Proof.
  induction l as [|y l IH]; simpl; [done|].
  destruct (p y) eqn:Hy.
  - intros [= <-]. exists [], l. by repeat split.
  - intros (pre & post & -> & Hx & Hpre)%IH. exists (y :: pre), post.
    repeat split; [done|]. by constructor.
Qed.

Lemma max_by_len_longest b0 bs : longest_first (b0 :: bs) (max_by_len b0 bs).
Proof.
  unfold max_by_len.
  assert (H : ∀ bs pre best post,
             Forall (λ b, length (chars b) < length (chars best))%nat pre →
             Forall (λ b, length (chars b) ≤ length (chars best))%nat post →
             longest_first (pre ++ best :: post ++ bs)
               (foldl (λ best b, if (length (chars best) <? length (chars b))%nat
                                 then b else best) best bs)).
  { clear. intros bs. induction bs as [|b bs IH]; intros pre best post Hpre Hpost; simpl.
    - exists pre, post. by rewrite app_nil_r.
    - destruct (Nat.ltb_spec (length (chars best)) (length (chars b))) as [Hlt|Hge].
      + specialize (IH (pre ++ best :: post) b []).
        rewrite <- app_assoc in IH. simpl in IH. apply IH; [|constructor].
        apply Forall_app. split; [|constructor; [done|]].
        * eapply Forall_impl; [exact Hpre|]. simpl. lia.
        * eapply Forall_impl; [exact Hpost|]. simpl. lia.
      + specialize (IH pre best (post ++ [b])).
        rewrite <- app_assoc in IH. simpl in IH. apply IH; [done|].
        apply Forall_app. split; [done|]. by repeat constructor. }
  apply (H bs [] b0 []); constructor.
Qed.

Section SelectionProps.
Context `{PyLib}.

(** Where a rule applies, the selection is the first block that satisfies it. *)
Lemma select_io_first_match (blocks : list strobj) (inp out : strobj) :
  select_io blocks = (inp, out) →
  (input_by_rule blocks = true → first_with is_req blocks inp) ∧
  (output_by_rule blocks = true → first_with is_resp blocks out).
Proof.
  unfold select_io. fold (input_by_rule blocks). fold (output_by_rule blocks).
  intros [= <- <-]. split.
  - intros Hr. rewrite Hr. simpl.
    assert (Hinp : (match blocks with [] => next_or_empty is_req blocks
                    | _ :: _ => next_or_empty is_req blocks end) = next_or_empty is_req blocks)
      by (by destruct blocks).
    rewrite Hinp. unfold input_by_rule, next_or_empty in *.
    destruct (List.find is_req blocks) as [x|] eqn:E; [|done]. by apply find_first_with.
  - intros Hr. rewrite Hr. simpl. unfold output_by_rule, next_or_empty in *.
    destruct (List.find is_resp blocks) as [x|] eqn:E; [|done]. by apply find_first_with.
Qed.

(** Where no rule applies, the fallback takes the first of the longest. *)
Lemma select_io_fallback (blocks : list strobj) (inp out : strobj) :
  select_io blocks = (inp, out) →
  (input_by_rule blocks = false → blocks ≠ [] → longest_first blocks inp) ∧
  (output_by_rule blocks = false →
     match others inp blocks with
     | [] => out = empty_str
     | _ :: _ => longest_first (others inp blocks) out
     end).
Proof.
  unfold select_io. fold (input_by_rule blocks). fold (output_by_rule blocks).
  intros [= <- <-]. split.
  - intros Hr Hne. rewrite Hr. simpl. destruct blocks as [|b0 bs]; [done|].
    apply max_by_len_longest.
  - intros Hr. rewrite Hr. simpl. unfold others.
    destruct (List.filter _ blocks) as [|r0 rs]; [done|]. apply max_by_len_longest.
Qed.

(** X10.  What [pick_io] selects.  Where the keyword rule finds a block, the
    selection is the first block that satisfies the rule.  Otherwise the
    input is the first of the longest of all candidates, and the output the
    first of the longest of the candidates other than the input, or the empty
    string when there is none.  Without candidates both are the empty
    string. *)
Theorem select_io_selection (blocks : list strobj) (inp out : strobj) :
  select_io blocks = (inp, out) →
  (if input_by_rule blocks then first_with is_req blocks inp
   else blocks ≠ [] → longest_first blocks inp) ∧
  (if output_by_rule blocks then first_with is_resp blocks out
   else match others inp blocks with
        | [] => out = empty_str
        | _ :: _ => longest_first (others inp blocks) out
        end) ∧
  (blocks = [] → inp = empty_str ∧ out = empty_str).
Proof.
  intros Hsel.
  destruct (select_io_first_match _ _ _ Hsel) as [Hi Ho].
  destruct (select_io_fallback _ _ _ Hsel) as [Hi' Ho'].
  split; [destruct (input_by_rule blocks); [by apply Hi|by apply Hi']|].
  split; [destruct (output_by_rule blocks); [by apply Ho|by apply Ho']|].
  intros ->. by injection Hsel as <- <-.
Qed.
End SelectionProps.

Lemma alloc_lookup l i b : alloc l !! i = Some b → ∃ s, l !! i = Some s ∧ b = {| oid := S i; chars := s |}.
Proof.
  unfold alloc. rewrite list_lookup_imap. destruct (l !! i) as [s|]; simpl; [|done].
  intros [= <-]. eauto.
Qed.

Lemma alloc_elem l b : b ∈ alloc l → chars b ∈ l.
Proof.
  intros [i Hi]%list_elem_of_lookup. apply alloc_lookup in Hi as (s & Hs & ->).
  simpl. by eapply list_elem_of_lookup_2.
Qed.

Lemma alloc_oid_inj l i j a b :
  alloc l !! i = Some a → alloc l !! j = Some b → oid a = oid b → i = j.
Proof.
  intros (s & _ & ->)%alloc_lookup (t & _ & ->)%alloc_lookup. simpl. lia.
Qed.

Lemma alloc_length l : length (alloc l) = length l.
Proof. unfold alloc. apply length_imap. Qed.

Section CandidateProps.
Context `{PyLib}.

(** X11.  With candidates as [json_blocks_near] returns them (separate
    objects, none empty), the input is filled as soon as there is a
    candidate, and the output as soon as there are two. *)
Theorem select_io_filled (l : list str) (inp out : strobj) :
  Forall (λ s, s ≠ []) l →
  select_io (alloc l) = (inp, out) →
  (l ≠ [] → chars inp ≠ []) ∧ ((2 ≤ length l)%nat → chars out ≠ []).
Proof.
  intros Hl Hsel.
  assert (Hne : ∀ b, b ∈ alloc l → chars b ≠ []).
  { intros b Hb%alloc_elem. by apply (proj1 (Forall_forall _ _) Hl). }
  assert (Hinp : l ≠ [] → inp ∈ alloc l).
  { intros Hnil.
    destruct (select_io_fallback _ _ _ Hsel) as [Hfb _].
    destruct (select_io_first_match _ _ _ Hsel) as [Hfm _].
    destruct (input_by_rule (alloc l)) eqn:E.
    - destruct (Hfm eq_refl) as (pre & post & Heq & _). rewrite Heq. set_solver.
    - assert (Ha : alloc l ≠ []).
      { intros Ha. apply (f_equal length) in Ha. rewrite alloc_length in Ha.
        destruct l; [done|discriminate]. }
      destruct (Hfb eq_refl Ha) as (pre & post & Heq & _). rewrite Heq. set_solver. }
  split; [intros Hnil; by apply Hne, Hinp|].
  intros Hlen.
  destruct (select_io_fallback _ _ _ Hsel) as [_ Hfb].
  destruct (select_io_first_match _ _ _ Hsel) as [_ Hfm].
  destruct (output_by_rule (alloc l)) eqn:E.
  - destruct (Hfm eq_refl) as (pre & post & Heq & _). apply Hne. rewrite Heq. set_solver.
  - specialize (Hfb eq_refl).
    assert (Hin : inp ∈ alloc l) by (apply Hinp; intros ->; simpl in Hlen; lia).
    apply list_elem_of_lookup in Hin as [i Hi].
    assert (∃ j b, alloc l !! j = Some b ∧ j ≠ i) as (j & b & Hj & Hji).
    { destruct (decide (i = 0%nat)) as [->|].
      - destruct (lookup_lt_is_Some_2 (alloc l) 1) as [b Hb]; [rewrite alloc_length; lia|].
        by exists 1%nat, b.
      - destruct (lookup_lt_is_Some_2 (alloc l) 0) as [b Hb]; [rewrite alloc_length; lia|].
        by exists 0%nat, b. }
    assert (Hb : b ∈ others inp (alloc l)).
    { unfold others. rewrite list_elem_of_In, filter_In, <- list_elem_of_In. split.
      - by eapply list_elem_of_lookup_2.
      - apply negb_true_iff, Nat.eqb_neq. intros Ho.
        by apply Hji, (alloc_oid_inj l j i b inp). }
    destruct (others inp (alloc l)) as [|r0 rs] eqn:Eo; [by apply elem_of_nil in Hb|].
    destruct Hfb as (pre & post & Heq & _).
    assert (Hout : out ∈ others inp (alloc l)) by (rewrite Eo, Heq; set_solver).
    unfold others in Hout. rewrite list_elem_of_In, filter_In, <- list_elem_of_In in Hout.
    apply Hne, Hout.
Qed.

(** X12.  A single candidate is always the input; it is also the output
    exactly when it is response-like, and the output is empty otherwise. *)
Theorem select_io_single (s : str) :
  s ≠ [] →
  let b := {| oid := 1; chars := s |} in
  select_io (alloc [s]) = (b, if is_resp b then b else empty_str).
Proof.
  intros Hs b. destruct s as [|c s']; [done|]. clear Hs.
  change (alloc [c :: s']) with [b]. unfold select_io, next_or_empty. cbn [List.find].
  destruct (is_req b) eqn:Eq.
  - rewrite (is_req_not_resp b Eq). reflexivity.
  - destruct (is_resp b) eqn:Er; reflexivity.
Qed.
End CandidateProps.

(** ** The rows of [main] *)

(** A loop over rows keeps what each of its iterations appends. *)
Lemma for_each_rows {A} (body : list row * Z → A → result (list row * Z))
    (P : row → Prop) (l : list A) :
  (∀ a rows idx, a ∈ l →
     ∃ new idx', body (rows, idx) a = Ok (rows ++ new, idx') ∧ Forall P new) →
  ∀ rows idx, ∃ new idx', for_each body l (rows, idx) = Ok (rows ++ new, idx') ∧ Forall P new.
Proof.
  induction l as [|a l IH]; intros Hbody rows idx; cbn [for_each].
  - exists [], idx. by rewrite app_nil_r.
  - destruct (Hbody a rows idx) as (new1 & idx1 & -> & H1); [apply list_elem_of_here|].
    cbn [mbind result_bind].
    destruct (IH (λ a rows idx Ha, Hbody a rows idx (list_elem_of_further _ _ _ Ha))
                 (rows ++ new1) idx1) as (new2 & idx2 & -> & H2).
    exists (new1 ++ new2), idx2. rewrite <- app_assoc. split; [done|]. by apply Forall_app.
Qed.

Lemma find_urls_anchor text u :
  u ∈ find_urls text → ∃ start, find_str u text = Some start ∧ (start ≤ length text)%nat.
Proof.
  intros [i Hin%finditer_sound%declared_infix]%find_urls_elem.
  destruct Hin as (pre & post & ->).
  destruct (find_str_infix u pre post) as [start Hs].
  exists start. by destruct (find_str_Some _ _ _ Hs) as (Hle & _).
Qed.

Section RowProps.
Context `{PyLib}.

Lemma pdf_step_rows (P : row → Prop) (f : pdf) :
  (truthy (strip (read_pdf_text f)) = false → ∀ idx, P (placeholder idx (pdf_name f))) →
  (∀ u rows idx r,
     u ∈ find_urls (read_pdf_text f) →
     url_step (pdf_name f) (read_pdf_text f) (rows, idx) u = Ok (rows ++ [r], (idx + 1)%Z) →
     P r) →
  ∀ rows idx, ∃ new idx', pdf_step (rows, idx) f = Ok (rows ++ new, idx') ∧ Forall P new.
Proof.
  intros Hp Hu rows idx. unfold pdf_step.
  destruct (truthy (strip (read_pdf_text f))); cbn [negb].
  - apply for_each_rows. intros u rows' idx' Hin.
    destruct (url_step_spec (pdf_name f) (read_pdf_text f) rows' idx' u) as (r & Hr & _).
    exists [r], (idx' + 1)%Z. split; [done|]. constructor; [|constructor].
    by apply (Hu u rows' idx').
  - exists [placeholder idx (pdf_name f)], (idx + 1)%Z. split; [done|].
    constructor; [by apply Hp|constructor].
Qed.

Lemma main_rows (P : row → Prop) (files : list pdf) :
  (∀ f rows idx, f ∈ files →
     ∃ new idx', pdf_step (rows, idx) f = Ok (rows ++ new, idx') ∧ Forall P new) →
  ∃ rows, main files = Ok rows ∧ Forall P rows.
Proof.
  intros Hf. unfold main.
  destruct (for_each_rows pdf_step P (sorted files)) with (rows := @nil row) (idx := 1%Z)
    as (new & idx' & -> & Hnew).
  - intros f rows idx Hin. apply Hf. by rewrite <- (sorted_perm files).
  - simpl. by exists new.
Qed.

(** X13.  Every row that [main] builds has the method [POST], the response
    code [200] and the name of one of the files. *)
Theorem main_constant_fields (files : list pdf) :
  ∃ rows, main files = Ok rows ∧
    Forall (λ r, Method r = lit "POST" ∧ ResponseCode r = lit "200" ∧
                 ∃ f, f ∈ files ∧ FileName r = pdf_name f) rows.
Proof.
  apply main_rows. intros f rows idx Hf. apply pdf_step_rows.
  - intros _ idx'. repeat split. by exists f.
  - intros u rows' idx' r _ Hr.
    destruct (url_step_spec (pdf_name f) (read_pdf_text f) rows' idx' u)
      as (r' & Hr' & _ & Hn & _ & Hm & Hc).
    rewrite Hr in Hr'. injection Hr' as Heq%app_inv_head. injection Heq as <-.
    repeat split; [done|done|]. by exists f.
Qed.

(** X14.  In a file whose text has at most 30000 characters, the window of
    every endpoint is the whole text: all rows of the file carry the same
    input and the same output. *)
Theorem short_text_same_blocks (f : pdf) (rows : list row) (idx : Z) :
  (Z.of_nat (length (read_pdf_text f)) ≤ default_radius)%Z →
  ∃ new idx', pdf_step (rows, idx) f = Ok (rows ++ new, idx') ∧
    ∀ r1 r2, r1 ∈ new → r2 ∈ new → Input r1 = Input r2 ∧ Output r1 = Output r2.
Proof.
  intros Hlen. set (text := read_pdf_text f) in *.
  destruct (pick_io_total (alloc (json_blocks_near text 0 default_radius default_max_blocks)))
    as (a & b & Hio).
  destruct (truthy (strip text)) eqn:Et.
  - destruct (pdf_step_rows (λ r, Input r = a ∧ Output r = b) f) with (rows := rows) (idx := idx)
      as (new & idx' & Hs & Hnew).
    + fold text. by rewrite Et.
    + fold text. intros u rows' idx' r Hu. unfold url_step.
      destruct (find_urls_anchor text u Hu) as (start & -> & Hst).
      unfold json_blocks_near in Hio |- *.
      rewrite blocks_run_whole in Hio |- * by (unfold default_radius in *; lia).
      rewrite Hio. cbn [mbind result_bind]. intros [= Hr%app_inv_head]. injection Hr as <-. done.
    + exists new, idx'. split; [done|]. intros r1 r2 H1 H2.
      rewrite Forall_forall in Hnew. destruct (Hnew _ H1), (Hnew _ H2). split; congruence.
  - unfold pdf_step. fold text. rewrite Et. cbn [negb].
    exists [placeholder idx (pdf_name f)], (idx + 1)%Z. split; [done|].
    by intros r1 r2 ->%list_elem_of_singleton ->%list_elem_of_singleton.
Qed.
End RowProps.

(** ** Discovery, file order and independence of the files *)

Lemma find_urls_nonempty text u : u ∈ find_urls text → u ≠ [].
Proof.
  intros [i [_ (post & ws & r & _ & _ & _ & -> & _)]%finditer_sound]%find_urls_elem. done.
Qed.

(** X9.  A text in which [POST] does not occur declares no endpoint. *)
Theorem find_urls_without_post (text : str) :
  contains POST text = false → find_urls text = [].
Proof.
  intros Hc. destruct (find_urls text) as [|u l] eqn:E; [done|].
  assert (Hu : u ∈ find_urls text) by (rewrite E; apply list_elem_of_here).
  apply find_urls_elem in Hu as [i [_ (post & ws & r & Hd & _)]%finditer_sound].
  assert (contains POST text = true) as Ht; [|congruence].
  apply contains_infix. exists (take i text), (ws ++ u ++ post).
  rewrite <- Hd. by rewrite take_drop.
Qed.

Lemma name_le_antisym f g : name_le f g → name_le g f → pdf_name f = pdf_name g.
Proof. unfold name_le. intros Hfg Hgf. by apply str_ltb_total. Qed.

Lemma names_inj (l : list pdf) f g :
  NoDup (map pdf_name l) → f ∈ l → g ∈ l → pdf_name f = pdf_name g → f = g.
Proof.
  induction l as [|h l IH]; [by intros _ ?%elem_of_nil|].
  cbn [map]. rewrite NoDup_cons. intros [Hh Hl].
  rewrite !elem_of_cons. intros [->|Hf] [->|Hg] Hn; [done| | |by apply IH].
  - exfalso. apply Hh. rewrite Hn. by apply list_elem_of_fmap_2.
  - exfalso. apply Hh. rewrite <- Hn. by apply list_elem_of_fmap_2.
Qed.

Lemma sorted_unique (l1 l2 : list pdf) :
  NoDup (map pdf_name l1) → l1 ≡ₚ l2 →
  StronglySorted name_le l1 → StronglySorted name_le l2 → l1 = l2.
Proof.
  intros Hnd Hp H1. revert l2 Hnd Hp.
  induction H1 as [|f l1 Hs IH Hf]; intros l2 Hnd Hp H2.
  - by apply Permutation_nil_l in Hp.
  - destruct H2 as [|g l2 Hs2 Hg]; [by apply Permutation_nil_r in Hp|].
    assert (f = g) as <-.
    { assert (Hfin : f ∈ g :: l2) by (rewrite <- Hp; apply list_elem_of_here).
      assert (Hgin : g ∈ f :: l1) by (rewrite Hp; apply list_elem_of_here).
      apply elem_of_cons in Hfin as [|Hfin]; [done|].
      apply elem_of_cons in Hgin as [|Hgin]; [done|].
      rewrite Forall_forall in Hf, Hg.
      apply (names_inj (f :: l1)); [done|apply list_elem_of_here|by apply list_elem_of_further|].
      apply name_le_antisym; [by apply Hf|by apply Hg]. }
    f_equal. apply IH; [|by apply Permutation_cons_inv in Hp|done].
    cbn [map] in Hnd. by apply NoDup_cons in Hnd as [_ ?].
Qed.

Lemma pdf_entries_name f e : e ∈ pdf_entries f → e.1 = pdf_name f.
Proof.
  unfold pdf_entries. destruct (truthy _).
  - by intros (u & -> & _)%list_elem_of_fmap.
  - by intros ->%list_elem_of_singleton.
Qed.

Lemma NoDup_pdf_entries f : NoDup (pdf_entries f).
Proof.
  unfold pdf_entries. destruct (truthy _).
  - apply NoDup_fmap_2; [by intros ? ? [=]|].
    rewrite find_urls_first_occurrences. apply NoDup_first_occurrences.
  - apply NoDup_singleton.
Qed.

Lemma elem_of_concat {A} (x : A) (ls : list (list A)) :
  x ∈ concat ls ↔ ∃ l, x ∈ l ∧ l ∈ ls.
Proof.
  induction ls as [|l ls IH]; cbn [concat].
  - split; [by intros ?%elem_of_nil|by intros (l & _ & ?%elem_of_nil)].
  - rewrite elem_of_app, IH. setoid_rewrite elem_of_cons. naive_solver.
Qed.

Lemma NoDup_entries (l : list pdf) :
  NoDup (map pdf_name l) → NoDup (concat (map pdf_entries l)).
Proof.
  induction l as [|f l IH]; cbn [map concat]; [constructor|].
  rewrite NoDup_cons. intros [Hf Hl]. apply NoDup_app. split; [apply NoDup_pdf_entries|].
  split; [|by apply IH].
  intros e He%pdf_entries_name (es & Hes & (g & -> & Hg)%list_elem_of_fmap)%elem_of_concat.
  apply pdf_entries_name in Hes. apply Hf. rewrite <- He, Hes. by apply list_elem_of_fmap_2.
Qed.

Lemma shift_shift k1 k2 r : shift k2 (shift k1 r) = shift (k1 + k2) r.
Proof. unfold shift. simpl. f_equal. lia. Qed.

Section FileProps.
Context `{PyLib}.

(** X15.  The result does not depend on the order in which the directory
    lists the files, when their names are distinct. *)
Theorem main_listing_order (files1 files2 : list pdf) :
  NoDup (map pdf_name files1) → files1 ≡ₚ files2 → main files1 = main files2.
Proof.
  intros Hnd Hp. unfold main.
  rewrite (sorted_unique (sorted files1) (sorted files2)); [done| | |apply sorted_sorted..].
  - by rewrite (sorted_perm files1).
  - by rewrite !sorted_perm.
Qed.

(** X16.  When the files have distinct names, no two rows have the same
    file name and URL. *)
Theorem main_entries_distinct (files : list pdf) :
  NoDup (map pdf_name files) →
  ∃ rows, main files = Ok rows ∧ NoDup (map entry rows).
Proof.
  intros Hnd. destruct (main_spec files) as (rows & Hm & He & _).
  exists rows. split; [done|]. rewrite He. apply NoDup_entries.
  by rewrite (sorted_perm files).
Qed.

Lemma url_loop_independent name text urls :
  ∃ base, ∀ rows idx,
    for_each (url_step name text) urls (rows, idx)
    = Ok (rows ++ map (shift idx) base, (idx + Z.of_nat (length base))%Z).
Proof.
  induction urls as [|u urls [base IH]].
  - exists []. intros rows idx. cbn. by rewrite app_nil_r, Z.add_0_r.
  - destruct (url_step_spec name text [] 0 u) as (r & Hr & _).
    exists (r :: map (shift 1) base). intros rows idx. cbn [for_each].
    unfold url_step in Hr |- *.
    destruct (pick_io _) as [[inp out]|e]; [|done]. cbn [mbind result_bind] in Hr |- *.
    injection Hr as <-. rewrite IH. f_equal. cbn [map length]. rewrite <- app_assoc.
    rewrite length_map. f_equal; [|lia]. f_equal. cbn [app]. f_equal.
    rewrite map_map. apply map_ext. intros r. cbn. rewrite shift_shift. f_equal. lia.
Qed.

(** X17.  The rows of a file do not depend on the rows before them, up to
    their indices: they are the rows the file gives alone from index 0,
    moved by the current index. *)
Theorem pdf_step_independent (f : pdf) (rows : list row) (idx : Z) :
  ∃ base, pdf_step ([], 0%Z) f = Ok (base, Z.of_nat (length base)) ∧
    pdf_step (rows, idx) f
    = Ok (rows ++ map (shift idx) base, (idx + Z.of_nat (length base))%Z).
Proof.
  unfold pdf_step. destruct (truthy (strip (read_pdf_text f))); cbn [negb].
  - destruct (url_loop_independent (pdf_name f) (read_pdf_text f) (find_urls (read_pdf_text f)))
      as [base Hb].
    exists (map (shift 0) base). rewrite !Hb. cbn [app]. rewrite length_map. split; [done|].
    rewrite map_map. f_equal. f_equal. f_equal. apply map_ext. intros r. by rewrite shift_shift.
  - exists [placeholder 0 (pdf_name f)]. split; [done|]. cbn. unfold shift, placeholder. cbn.
    done.
Qed.

(** X18.  A file gives the placeholder row exactly when each of its pages
    has no text or only white space. *)
Theorem placeholder_iff_blank_pages (f : pdf) (rows : list row) (idx : Z) :
  pdf_step (rows, idx) f = Ok (rows ++ [placeholder idx (pdf_name f)], (idx + 1)%Z)
  ↔ ∀ t, Some t ∈ pdf_pages f → blank t.
Proof.
  rewrite <- read_pdf_text_blank.
  destruct (pdf_step_spec f rows idx) as (new & Hs & He & _ & Hb). split.
  - intros Hp. destruct (truthy (strip (read_pdf_text f))) eqn:Et; [exfalso|done].
    rewrite Hp in Hs. injection Hs as Hnew%app_inv_head _. subst new.
    unfold pdf_entries in He. rewrite Et in He.
    destruct (find_urls (read_pdf_text f)) as [|u l] eqn:Eu; [done|].
    injection He as Hu _. apply (find_urls_nonempty (read_pdf_text f) u); [|done].
    rewrite Eu. apply list_elem_of_here.
  - intros Et. by rewrite Hs, (Hb Et).
Qed.
End FileProps.

(** ** Instances of the properties above *)

Lemma json_blocks_near_shape_witness :
  balanced Ex.req_block ∧ strip Ex.req_block = Ex.req_block.
Proof.
  destruct (json_blocks_near_shape Ex.pay_text 5 default_radius default_max_blocks Ex.req_block)
    as (_ & Hb & Hs & _).
  - assert (json_blocks_near Ex.pay_text 5 default_radius default_max_blocks
            = [Ex.req_block; Ex.resp_block]) as -> by (vm_compute; reflexivity).
    apply list_elem_of_here.
  - by split.
Defined.

Lemma json_blocks_near_no_brace_witness :
  json_blocks_near (lit "POST /v1/pay {") 0 default_radius default_max_blocks = [].
Proof.
  apply json_blocks_near_no_brace. right.
  apply (bool_decide_unpack _). vm_compute. exact I.
Defined.

Lemma json_blocks_near_center_witness :
  json_blocks_near Ex.pay_text 5 default_radius default_max_blocks
  = json_blocks_near Ex.pay_text 0 default_radius default_max_blocks.
Proof. apply json_blocks_near_center; by vm_compute. Defined.

Lemma window_bound_witness : (Z.of_nat (length Ex.req_block) ≤ 2 * default_radius)%Z.
Proof.
  destruct (window_bound Ex.pay_text 5 default_radius default_max_blocks) as [_ Hb];
    [by vm_compute|].
  apply Hb.
  assert (json_blocks_near Ex.pay_text 5 default_radius default_max_blocks
          = [Ex.req_block; Ex.resp_block]) as -> by (vm_compute; reflexivity).
  apply list_elem_of_here.
Defined.

Lemma json_blocks_near_cap_prefix_witness :
  json_blocks_near Ex.pay_text 5 default_radius 1
  = take 1 (json_blocks_near Ex.pay_text 5 default_radius default_max_blocks).
Proof.
  apply (json_blocks_near_cap_prefix Ex.pay_text 5 default_radius 1 default_max_blocks).
  unfold default_max_blocks. lia.
Defined.

Lemma find_urls_without_post_witness : find_urls (read_pdf_text Ex.notes_pdf) = [].
Proof. apply find_urls_without_post. vm_compute. reflexivity. Defined.

Lemma select_io_selection_witness :
  first_with (is_req (H := RefLib.lib)) (alloc [Ex.resp_block; Ex.req_block])
    {| oid := 2; chars := Ex.req_block |} ∧
  first_with (is_resp (H := RefLib.lib)) (alloc [Ex.resp_block; Ex.req_block])
    {| oid := 1; chars := Ex.resp_block |}.
Proof.
  destruct (select_io_selection (H := RefLib.lib) (alloc [Ex.resp_block; Ex.req_block])
              {| oid := 2; chars := Ex.req_block |} {| oid := 1; chars := Ex.resp_block |})
    as (Hi & Ho & _); [vm_compute; reflexivity|].
  assert (Ei : input_by_rule (H := RefLib.lib) (alloc [Ex.resp_block; Ex.req_block]) = true)
    by (vm_compute; reflexivity).
  assert (Eo : output_by_rule (H := RefLib.lib) (alloc [Ex.resp_block; Ex.req_block]) = true)
    by (vm_compute; reflexivity).
  rewrite Ei in Hi. rewrite Eo in Ho. by split.
Defined.

Lemma select_io_filled_witness :
  ∃ inp out, select_io (H := RefLib.lib) (alloc [Ex.req_block; Ex.resp_block]) = (inp, out) ∧
             chars inp ≠ [] ∧ chars out ≠ [].
Proof.
  exists {| oid := 1; chars := Ex.req_block |}, {| oid := 2; chars := Ex.resp_block |}.
  assert (Hsel : select_io (H := RefLib.lib) (alloc [Ex.req_block; Ex.resp_block])
                 = ({| oid := 1; chars := Ex.req_block |}, {| oid := 2; chars := Ex.resp_block |}))
    by (vm_compute; reflexivity).
  destruct (select_io_filled (H := RefLib.lib) [Ex.req_block; Ex.resp_block]
              {| oid := 1; chars := Ex.req_block |} {| oid := 2; chars := Ex.resp_block |})
    as [Hi Ho]; [repeat constructor; by vm_compute|exact Hsel|].
  split; [exact Hsel|]. split; [by apply Hi|apply Ho; simpl; lia].
Defined.

Lemma select_io_single_witness :
  select_io (H := RefLib.lib) (alloc [Ex.resp_block])
  = ({| oid := 1; chars := Ex.resp_block |}, {| oid := 1; chars := Ex.resp_block |}).
Proof.
  pose proof (select_io_single (H := RefLib.lib) Ex.resp_block) as Hs. cbv zeta in Hs.
  rewrite Hs by (by vm_compute).
  assert (Er : is_resp (H := RefLib.lib) {| oid := 1; chars := Ex.resp_block |} = true)
    by (vm_compute; reflexivity).
  by rewrite Er.
Defined.

Lemma short_text_same_blocks_witness :
  ∃ new idx', pdf_step (H := RefLib.lib) ([], 1%Z) Ex.pay_pdf = Ok (new, idx') ∧
    ∀ r1 r2, r1 ∈ new → r2 ∈ new → Input r1 = Input r2 ∧ Output r1 = Output r2.
Proof.
  destruct (short_text_same_blocks (H := RefLib.lib) Ex.pay_pdf [] 1)
    as (new & idx' & Hs & Hsame); [by vm_compute|].
  exists new, idx'. by split.
Defined.

Lemma main_listing_order_witness :
  main (H := RefLib.lib) [Ex.pay_pdf; Ex.acct_pdf]
  = main (H := RefLib.lib) [Ex.acct_pdf; Ex.pay_pdf].
Proof.
  apply main_listing_order; [|apply perm_swap].
  apply (bool_decide_unpack _). vm_compute. exact I.
Defined.

Lemma main_entries_distinct_witness :
  ∃ rows, main (H := RefLib.lib) [Ex.pay_pdf; Ex.acct_pdf] = Ok rows ∧ NoDup (map entry rows).
Proof.
  apply main_entries_distinct.
  apply (bool_decide_unpack _). vm_compute. exact I.
Defined.

Lemma placeholder_iff_blank_pages_witness : blank (lit "  ").
Proof.
  apply (proj1 (placeholder_iff_blank_pages (H := RefLib.lib) Ex.blank_pdf [] 1)).
  - vm_compute. reflexivity.
  - apply list_elem_of_further, list_elem_of_here.
Defined.
